(** * Stk Barbershop backend: rate limiter and appointment validation

    A shallow embedding of [main.py]: the in-memory sliding-window limiter
    ([check_rate_limit]) and the validation of an appointment request
    ([AppointmentRequest], [create_appointment]), with the properties the
    specification states about them. *)

From Stdlib Require Import ZArith Lia Ascii String.
From stdpp Require Import gmap strings list.

Local Open Scope Z_scope.

(** ** Time

    [datetime.utcnow()] yields a naive instant with microsecond resolution;
    instants are integers counting microseconds, a [timedelta] is a signed
    number of microseconds, and subtraction and comparison are exact. *)

Definition datetime := Z.
Definition timedelta := Z.

Definition seconds (n : Z) : timedelta := n * 1000000.
Definition minutes (n : Z) : timedelta := seconds (n * 60).

(** ** Outcomes

    A Python function that returns [None] or raises is a function into
    [result]: [Ok] carries the returned value, [Raise] the exception. *)

Inductive result (E A : Type) : Type :=
| Ok (a : A)
| Raise (e : E).
Arguments Ok {E A} a.
Arguments Raise {E A} e.

Definition is_ok {E A} (r : result E A) : bool :=
  match r with Ok _ => true | Raise _ => false end.

(** The [ValueError]s raised by the validators, named by the reason codes
    of the specification; the Romanian message of the source is given with
    each. *)
Inductive reason : Type :=
| MissingField    (* pydantic: "Field required" *)
| InvalidName     (* pydantic: "String should have at least 2 characters" *)
| InvalidPhone    (* "Număr de telefon invalid" *)
| InvalidEmail    (* pydantic EmailStr: "value is not a valid email address" *)
| InvalidService  (* "Serviciu invalid" *)
| InvalidDate     (* "Format dată invalid (YYYY-MM-DD)" *)
| InvalidTime     (* "Format oră invalid (HH:MM)" *)
| UnparsedInstant (* the ValueError of strptime inside combined_datetime *)
| PastDateTime    (* "Data și ora nu pot fi în trecut" *)
| CaptchaFailed.  (* "Captcha invalid" *)

(** The responses of the service: [HTTPException(status_code=...)] and the
    422 that the framework answers to a request body the model rejects. *)
Inductive HTTPException : Type :=
| TooManyRequests                                  (* 429 *)
| BadRequest (detail : reason)                     (* 400, detail=str(e) *)
| Unprocessable (errors : list (string * reason))  (* 422 *)
| BadGateway.                                      (* 502 *)

Definition status_code (e : HTTPException) : Z :=
  match e with
  | TooManyRequests => 429
  | BadRequest _ => 400
  | Unprocessable _ => 422
  | BadGateway => 502
  end.

(** ** Rate limiting (in-memory) *)

Definition RATE_LIMIT_WINDOW_SHORT : timedelta := seconds 15.
Definition RATE_LIMIT_MAX_SHORT : nat := 1.
Definition RATE_LIMIT_WINDOW_LONG : timedelta := minutes 5.
Definition RATE_LIMIT_MAX_LONG : nat := 5.

(** [_request_log : dict[str, list[datetime]]] *)
Abbreviation request_log := (gmap string (list datetime)).

(** [_request_log.get(ip, [])] *)
Definition history_of (log : request_log) (ip : string) : list datetime :=
  default [] (log !! ip).

(** [[t for t in history if now - t <= RATE_LIMIT_WINDOW_LONG]] *)
Definition prune (now : datetime) (history : list datetime) : list datetime :=
  filter (λ t, now - t ≤ RATE_LIMIT_WINDOW_LONG) history.

(** [len([t for t in history if now - t <= RATE_LIMIT_WINDOW_SHORT])] *)
Definition short_count (now : datetime) (history : list datetime) : nat :=
  length (filter (λ t, now - t ≤ RATE_LIMIT_WINDOW_SHORT) history).

(** [check_rate_limit(ip)], with the clock reading [now] and the table passed
    in; the table is returned with the outcome, since the pruned history is
    stored before the checks and stays stored when the call raises. *)
Definition check_rate_limit (ip : string) (now : datetime) (log : request_log)
  : request_log * result HTTPException unit :=
  let history := history_of log ip in
  let history := prune now history in
  let log := <[ip := history]> log in
  let short_count := short_count now history in
  let long_count := length history in
  if bool_decide (RATE_LIMIT_MAX_SHORT ≤ short_count)%nat
     || bool_decide (RATE_LIMIT_MAX_LONG ≤ long_count)%nat
  then (log, Raise TooManyRequests)
  else
    let history := history ++ [now] in
    (<[ip := history]> log, Ok ()).

(** The test of [check_rate_limit], on the pruned history. *)
Definition over_limit (now : datetime) (h : list datetime) : Prop :=
  (RATE_LIMIT_MAX_SHORT ≤ short_count now h)%nat
  ∨ (RATE_LIMIT_MAX_LONG ≤ length h)%nat.

#[global] Instance over_limit_dec now h : Decision (over_limit now h).
Proof. unfold over_limit. apply _. Defined.

(** The outcome of one call and the table it leaves. *)
Definition rejected (ip : string) (now : datetime) (log : request_log) : Prop :=
  (check_rate_limit ip now log).2 = Raise TooManyRequests.
Definition passed (ip : string) (now : datetime) (log : request_log) : Prop :=
  (check_rate_limit ip now log).2 = Ok ().
Definition log_after (ip : string) (now : datetime) (log : request_log)
  : request_log :=
  (check_rate_limit ip now log).1.

(** A client issuing requests at the instants [nows], one after the other:
    the outcomes in order and the final table. *)
Fixpoint run (ip : string) (nows : list datetime) (log : request_log)
  : list (result HTTPException unit) * request_log :=
  match nows with
  | [] => ([], log)
  | now :: rest =>
      let '(log1, r) := check_rate_limit ip now log in
      let '(rs, log2) := run ip rest log1 in
      (r :: rs, log2)
  end.

(** Tables reachable from the empty one by calls of any clients at any
    instants. *)
Inductive reachable : request_log → Prop :=
| reachable_empty : reachable ∅
| reachable_step ip now log :
    reachable log → reachable (log_after ip now log).

(** ** Strings

    A Python [str] is a [string] whose characters are the code points below
    256 (ASCII and Latin-1), one [ascii] per character, so that [len] is
    [String.length]. *)

Definition code (c : ascii) : N := N_of_ascii c.

(** [c.isspace()], the characters [str.strip()] removes: TAB, LF, VT, FF, CR,
    the separators FS, GS, RS, US, the space, NEL and the no-break space. *)
Definition is_space (c : ascii) : bool :=
  let n := code c in
  ((9 <=? n) && (n <=? 13) || (28 <=? n) && (n <=? 32)
   || (n =? 133) || (n =? 160))%N.

Fixpoint lstrip (s : string) : string :=
  match s with
  | EmptyString => EmptyString
  | String c s' => if is_space c then lstrip s' else s
  end.

Fixpoint rstrip (s : string) : string :=
  match s with
  | EmptyString => EmptyString
  | String c s' =>
      match rstrip s' with
      | EmptyString => if is_space c then EmptyString else String c EmptyString
      | r => String c r
      end
  end.

(** [s.strip()] *)
Definition strip (s : string) : string := rstrip (lstrip s).

(** [s.replace(old, "")] for a one-character [old]. *)
Fixpoint remove_char (old : ascii) (s : string) : string :=
  match s with
  | EmptyString => EmptyString
  | String c s' =>
      if Ascii.eqb c old then remove_char old s'
      else String c (remove_char old s')
  end.

(** [c.lower()]: the ASCII capitals and the Latin-1 capitals (U+00C0 to
    U+00DE without the multiplication sign U+00D7) move up by 32. *)
Definition lower_char (c : ascii) : ascii :=
  let n := code c in
  if ((65 <=? n) && (n <=? 90) || (192 <=? n) && (n <=? 214)
      || (216 <=? n) && (n <=? 222))%N
  then ascii_of_N (n + 32) else c.

(** [s.lower()] *)
Fixpoint lower (s : string) : string :=
  match s with
  | EmptyString => EmptyString
  | String c s' => String (lower_char c) (lower s')
  end.

(** The last character of a string, if it has one. *)
Fixpoint last_char (s : string) : option ascii :=
  match s with
  | EmptyString => None
  | String c EmptyString => Some c
  | String _ s' => last_char s'
  end.

(** ** Regular expressions

    The fragment of [re] that [PHONE_REGEX] is written in, matched the way
    [re] does it: by backtracking, greedy first, with the rest of the
    pattern as a continuation.  A matcher gets the offset reached, the rest
    of the subject and the continuation. *)

Inductive regex : Type :=
| Bol                                  (* ^ *)
| Eol                                  (* $ *)
| Class (ranges : list (ascii * ascii)) (* [a-bc-d...] *)
| Opt (r : regex)                      (* r? *)
| Rep (lo hi : nat) (r : regex)        (* r{lo,hi} *)
| Group (r : regex)                    (* (r) *)
| Cat (r1 r2 : regex).

Definition matcher : Type := nat → string → (nat → string → bool) → bool.

Definition in_class (ranges : list (ascii * ascii)) (c : ascii) : bool :=
  existsb (λ '(a, b), (code a <=? code c) && (code c <=? code b))%N ranges.

Definition newline : ascii := ascii_of_N 10.

(** [$] holds at the end of the subject and just before a newline that ends
    the subject. *)
Definition at_eol (s : string) : bool :=
  match s with
  | EmptyString => true
  | String c EmptyString => Ascii.eqb c newline
  | _ => false
  end.

(** [r{lo,hi}]: one more [r] first, then stopping if [lo] are done. *)
Fixpoint rep (mr : matcher) (hi lo : nat) : matcher :=
  λ pos s k,
    match hi with
    | O => Nat.eqb lo 0 && k pos s
    | S hi' =>
        mr pos s (λ pos' s', rep mr hi' (Nat.pred lo) pos' s' k)
        || Nat.eqb lo 0 && k pos s
    end.

Fixpoint matching (r : regex) : matcher :=
  match r with
  | Bol => λ pos s k, Nat.eqb pos 0 && k pos s
  | Eol => λ pos s k, at_eol s && k pos s
  | Class ranges => λ pos s k,
      match s with
      | EmptyString => false
      | String c s' => in_class ranges c && k (S pos) s'
      end
  | Opt r => λ pos s k, matching r pos s k || k pos s
  | Rep lo hi r => rep (matching r) hi lo
  | Group r => matching r
  | Cat r1 r2 => λ pos s k, matching r1 pos s (λ pos' s', matching r2 pos' s' k)
  end.

(** [bool(pattern.match(s))]: a match that starts at offset 0. *)
Definition re_match (pattern : regex) (s : string) : bool :=
  matching pattern 0%nat s (λ _ _, true).

(** ** Models and validation *)

Definition ALLOWED_SERVICES : list string :=
  ["tuns"; "aranjat barba"; "pachet complet"]%string.

(** [re.compile(r"^[+]?([0-9]{8,15})$")] *)
Definition PHONE_REGEX : regex :=
  Cat Bol
    (Cat (Opt (Class [("+", "+")]%char))
       (Cat (Group (Rep 8 15 (Class [("0", "9")]%char))) Eol)).

(** The request body as it arrives: a JSON object whose members, when
    present, have the JSON type the model declares; [None] is an absent
    member (for the two optional members also [null]). *)
Record RawBody : Type := {
  raw_full_name : option string;
  raw_phone : option string;
  raw_email : option string;
  raw_service : option string;
  raw_date : option string;
  raw_time : option string;
  raw_message : option string;
  raw_captcha_a : option Z;
  raw_captcha_b : option Z;
  raw_captcha_result : option Z
}.

(** [class AppointmentRequest(BaseModel)] *)
Record AppointmentRequest : Type := {
  full_name : string;
  phone : string;
  email : option string;
  service : string;
  date : string;  (* YYYY-MM-DD *)
  time : string;  (* HH:MM *)
  message : option string;
  captcha_a : Z;
  captcha_b : Z;
  captcha_result : Z
}.

(** [class AppointmentResponse(BaseModel)] *)
Record AppointmentResponse : Type := {
  success : bool;
  response_message : string
}.

(** Validation of a model collects the failures of all its fields: the
    errors of a function and of its argument are both kept, in that
    order. *)
Definition collect {E A B}
    (f : result (list E) (A → B)) (x : result (list E) A)
  : result (list E) B :=
  match f, x with
  | Ok g, Ok a => Ok (g a)
  | Ok _, Raise ex => Raise ex
  | Raise ef, Ok _ => Raise ef
  | Raise ef, Raise ex => Raise (ef ++ ex)
  end.

(** One field of a model: its failure is reported under the field's name. *)
Definition field {A} (name : string) (r : result reason A)
  : result (list (string * reason)) A :=
  match r with
  | Ok a => Ok a
  | Raise e => Raise [(name, e)]
  end.

(** A field without a default. *)
Definition required {A B} (check : A → result reason B) (v : option A)
  : result reason B :=
  match v with
  | None => Raise MissingField
  | Some a => check a
  end.

(** A field [Optional[...] = None]. *)
Definition optional {A B} (check : A → result reason B) (v : option A)
  : result reason (option B) :=
  match v with
  | None => Ok None
  | Some a => match check a with Ok b => Ok (Some b) | Raise e => Raise e end
  end.

(** Sequencing of two calls that may raise. *)
Definition and_then {E A B} (r : result E A) (k : A → result E B)
  : result E B :=
  match r with
  | Ok a => k a
  | Raise e => Raise e
  end.

Section Validation.

(** [datetime.strptime(data, format)]: the instant parsed, or [None] where
    it raises [ValueError]. *)
Variable strptime : string → string → option datetime.

(** The check behind [EmailStr]: the address as retained, or [None] where
    it is not a valid address. *)
Variable validate_email_str : string → option string.

(** [full_name: str = Field(min_length=2)] *)
Definition check_full_name (v : string) : result reason string :=
  if bool_decide (2 ≤ String.length v)%nat then Ok v else Raise InvalidName.

(** [validate_phone(cls, v)] *)
Definition validate_phone (v : string) : result reason string :=
  let v := remove_char " " (strip v) in
  if negb (re_match PHONE_REGEX v) then Raise InvalidPhone else Ok v.

(** [email: Optional[EmailStr] = None] *)
Definition check_email (v : string) : result reason string :=
  match validate_email_str v with
  | Some e => Ok e
  | None => Raise InvalidEmail
  end.

(** [validate_service(cls, v)] *)
Definition validate_service (v : string) : result reason string :=
  let v_norm := lower (strip v) in
  if bool_decide (v_norm ∉ ALLOWED_SERVICES) then Raise InvalidService
  else Ok v_norm.

(** [validate_date(cls, v)] *)
Definition validate_date (v : string) : result reason string :=
  match strptime v "%Y-%m-%d" with
  | Some _ => Ok v
  | None => Raise InvalidDate
  end.

(** [validate_time(cls, v)] *)
Definition validate_time (v : string) : result reason string :=
  match strptime v "%H:%M" with
  | Some _ => Ok v
  | None => Raise InvalidTime
  end.

(** [message: Optional[str] = None] and the [int] fields have no check of
    their own. *)
Definition accept {A} (v : A) : result reason A := Ok v.

(** The validation of the request body against [AppointmentRequest]: every
    field is checked, in the order of declaration, and the failures are
    raised together. *)
Definition model_validate (body : RawBody)
  : result (list (string * reason)) AppointmentRequest :=
  collect (collect (collect (collect (collect (collect (collect (collect
    (collect (collect (Ok Build_AppointmentRequest)
      (field "full_name" (required check_full_name (raw_full_name body))))
      (field "phone" (required validate_phone (raw_phone body))))
      (field "email" (optional check_email (raw_email body))))
      (field "service" (required validate_service (raw_service body))))
      (field "date" (required validate_date (raw_date body))))
      (field "time" (required validate_time (raw_time body))))
      (field "message" (optional accept (raw_message body))))
      (field "captcha_a" (required accept (raw_captcha_a body))))
      (field "captcha_b" (required accept (raw_captcha_b body))))
      (field "captcha_result" (required accept (raw_captcha_result body))).

(** [combined_datetime(self)] *)
Definition combined_datetime (self : AppointmentRequest) : option datetime :=
  strptime (date self ++ " " ++ time self) "%Y-%m-%d %H:%M".

(** [validate_future(self)], with the clock reading [now]. *)
Definition validate_future (self : AppointmentRequest) (now : datetime)
  : result reason unit :=
  match combined_datetime self with
  | None => Raise UnparsedInstant
  | Some dt => if bool_decide (dt ≤ now) then Raise PastDateTime else Ok ()
  end.

(** [validate_captcha(self)] *)
Definition validate_captcha (self : AppointmentRequest) : result reason unit :=
  if bool_decide (captcha_a self + captcha_b self ≠ captcha_result self)
  then Raise CaptchaFailed else Ok ().

(** The two extra validations of [create_appointment], inside its [try]. *)
Definition extra_validations (self : AppointmentRequest) (now : datetime)
  : result reason unit :=
  and_then (validate_future self now) (λ _, validate_captcha self).

(** [create_appointment(payload, request)].  The framework validates the
    body against the model before the function is entered and answers 422
    with the collected errors; [client] is [request.client.host] when there
    is a client, [now_limit] and [now_future] are the two clock readings and
    [delivered] tells whether [send_email] returned. *)
Definition create_appointment (body : RawBody) (client : option string)
    (now_limit now_future : datetime) (delivered : bool) (log : request_log)
  : request_log * result HTTPException AppointmentResponse :=
  match model_validate body with
  | Raise errors => (log, Raise (Unprocessable errors))
  | Ok payload =>
      let client_ip := default "unknown"%string client in
      match check_rate_limit client_ip now_limit log with
      | (log, Raise e) => (log, Raise e)
      | (log, Ok _) =>
          match extra_validations payload now_future with
          | Raise e => (log, Raise (BadRequest e))
          | Ok _ =>
              if delivered
              then (log, Ok {| success := true;
                               response_message :=
                                 "Programarea a fost trimisă cu succes." |})
              else (log, Raise BadGateway)
          end
      end
  end.

(** The errors that a validation raises. *)
Definition errors_of {E A} (r : result (list E) A) : list E :=
  match r with
  | Ok _ => []
  | Raise errors => errors
  end.

(** The failure of one field, as an entry of the error list. *)
Definition failure_of {A} (name : string) (r : result reason A)
  : list (string * reason) :=
  match r with
  | Ok _ => []
  | Raise e => [(name, e)]
  end.

(** Every field of the body that fails its check, in the order in which
    the model declares the fields. *)
Definition failing_fields (body : RawBody) : list (string * reason) :=
  failure_of "full_name" (required check_full_name (raw_full_name body))
  ++ failure_of "phone" (required validate_phone (raw_phone body))
  ++ failure_of "email" (optional check_email (raw_email body))
  ++ failure_of "service" (required validate_service (raw_service body))
  ++ failure_of "date" (required validate_date (raw_date body))
  ++ failure_of "time" (required validate_time (raw_time body))
  ++ failure_of "message" (optional accept (raw_message body))
  ++ failure_of "captcha_a" (required accept (raw_captcha_a body))
  ++ failure_of "captcha_b" (required accept (raw_captcha_b body))
  ++ failure_of "captcha_result" (required accept (raw_captcha_result body)).

End Validation.

(** ** The wording of the specification

    Definitions that follow the specification's sentences, to compare the
    code with. *)

Definition is_digit (c : ascii) : bool :=
  ((code "0" <=? code c) && (code c <=? code "9"))%N.

Fixpoint all_digits (s : string) : bool :=
  match s with
  | EmptyString => true
  | String c s' => is_digit c && all_digits s'
  end.

(** "optional leading +, then 8 to 15 digits, nothing else" *)
Definition phone_shape (s : string) : bool :=
  let digits :=
    match s with
    | String c s' => if Ascii.eqb c "+" then s' else s
    | EmptyString => s
    end in
  all_digits digits
  && (8 <=? String.length digits)%nat && (String.length digits <=? 15)%nat.

(** The text is [body] and one final newline. *)
Definition ends_at_newline (s body : string) : Prop :=
  s = String.append body (String newline EmptyString).

(** The text is [body], or [body] and one final newline. *)
Definition ends_at (s body : string) : Prop :=
  s = body ∨ ends_at_newline s body.

(** "strip internal whitespace": every whitespace character is dropped. *)
Fixpoint remove_whitespace (s : string) : string :=
  match s with
  | EmptyString => EmptyString
  | String c s' =>
      if is_space c then remove_whitespace s'
      else String c (remove_whitespace s')
  end.

(** The whitespace of a string is made of spaces only. *)
Fixpoint only_space_blanks (s : string) : bool :=
  match s with
  | EmptyString => true
  | String c s' => (negb (is_space c) || Ascii.eqb c " ") && only_space_blanks s'
  end.

(** The requests of a client lie strictly more than the short window apart. *)
Fixpoint spaced (nows : list datetime) : Prop :=
  match nows with
  | t1 :: ((t2 :: _) as rest) => RATE_LIMIT_WINDOW_SHORT < t2 - t1 ∧ spaced rest
  | _ => True
  end.

(** The number of requests in the rolling long window that ends at [w]. *)
Definition in_window (w : datetime) (nows : list datetime) : nat :=
  length (filter (λ t, w - RATE_LIMIT_WINDOW_LONG ≤ t ∧ t ≤ w) nows).

(** [n] requests, the first at [t], each [d] after the one before. *)
Fixpoint evenly (n : nat) (t : datetime) (d : timedelta) : list datetime :=
  match n with
  | O => []
  | S n' => t :: evenly n' (t + d) d
  end.

(** ** Sample data *)

Definition TAB : ascii := ascii_of_N 9.

(** A phone number with a tabulation between its digit groups. *)
Definition phone_with_tab : string :=
  String.append "0712" (String TAB "345678").

Definition sample_request : AppointmentRequest := {|
  full_name := "Ion Popescu";
  phone := "0712345678";
  email := None;
  service := "tuns";
  date := "2030-01-15";
  time := "14:30";
  message := None;
  captcha_a := 2;
  captcha_b := 3;
  captcha_result := 5
|}.

Definition sample_body : RawBody := {|
  raw_full_name := Some "Ion Popescu"%string;
  raw_phone := Some "0712345678"%string;
  raw_email := None;
  raw_service := Some "Tuns"%string;
  raw_date := Some "2030-01-15"%string;
  raw_time := Some "14:30"%string;
  raw_message := None;
  raw_captcha_a := Some 2;
  raw_captcha_b := Some 2;
  raw_captcha_result := Some 4
|}.

(** What the validation makes of [sample_body]. *)
Definition sample_validated : AppointmentRequest := {|
  full_name := "Ion Popescu";
  phone := "0712345678";
  email := None;
  service := "tuns";
  date := "2030-01-15";
  time := "14:30";
  message := None;
  captcha_a := 2;
  captcha_b := 2;
  captcha_result := 4
|}.

(** A body whose name is too short and whose phone is too short. *)
Definition body_two_invalid : RawBody := {|
  raw_full_name := Some "A"%string;
  raw_phone := Some "123"%string;
  raw_email := None;
  raw_service := Some "Tuns"%string;
  raw_date := Some "2030-01-15"%string;
  raw_time := Some "14:30"%string;
  raw_message := None;
  raw_captcha_a := Some 2;
  raw_captcha_b := Some 2;
  raw_captcha_result := Some 4
|}.

(** A body whose name is too short and that has no phone at all. *)
Definition body_short_name_no_phone : RawBody := {|
  raw_full_name := Some "A"%string;
  raw_phone := None;
  raw_email := None;
  raw_service := Some "Tuns"%string;
  raw_date := Some "2030-01-15"%string;
  raw_time := Some "14:30"%string;
  raw_message := None;
  raw_captcha_a := Some 2;
  raw_captcha_b := Some 2;
  raw_captcha_result := Some 4
|}.

(** A well-formed body whose captcha does not add up. *)
Definition body_bad_captcha : RawBody := {|
  raw_full_name := Some "Ion Popescu"%string;
  raw_phone := Some "0712345678"%string;
  raw_email := None;
  raw_service := Some "Tuns"%string;
  raw_date := Some "2030-01-15"%string;
  raw_time := Some "14:30"%string;
  raw_message := None;
  raw_captcha_a := Some 2;
  raw_captcha_b := Some 2;
  raw_captcha_result := Some 5
|}.

(** A date parser for the samples: every text parses, to the instant 1000. *)
Definition strptime_const : string → string → option datetime :=
  λ _ _, Some 1000.

(** ** Further notions about the limiter *)

(** Clock readings that never go back. *)
Fixpoint monotone (nows : list datetime) : Prop :=
  match nows with
  | t1 :: ((t2 :: _) as rest) => t1 ≤ t2 ∧ monotone rest
  | _ => True
  end.

(** The instants, among those of a run, at which the client was let in. *)
Fixpoint admitted_times (ip : string) (nows : list datetime) (log : request_log)
  : list datetime :=
  match nows with
  | [] => []
  | now :: rest =>
      let '(log1, r) := check_rate_limit ip now log in
      if is_ok r then now :: admitted_times ip rest log1
      else admitted_times ip rest log1
  end.

(** ** Further notions about strings *)

(** No character of the text is whitespace. *)
Fixpoint no_blank (s : string) : bool :=
  match s with
  | EmptyString => true
  | String c s' => negb (is_space c) && no_blank s'
  end.

Definition first_char (s : string) : option ascii :=
  match s with
  | EmptyString => None
  | String c _ => Some c
  end.

(** ** Sending the mail *)

(** [os.environ] *)
Abbreviation environ := (gmap string string).

(** [os.getenv(key)] and [os.getenv(key, default)] *)
Definition getenv (env : environ) (key : string) : option string := env !! key.
Definition getenv_or (env : environ) (key default_value : string) : string :=
  default default_value (env !! key).

(** The truth value of a text that may be [None]: [None] and the empty
    text are false. *)
Definition truthy (v : option string) : bool :=
  match v with
  | Some (String _ _) => true
  | _ => false
  end.

(** What [send_email] asks of [smtplib], in order. *)
Inductive smtp_action : Type :=
| Connect (host : string) (port : Z)   (* smtplib.SMTP(host, port, timeout=15) *)
| StartTls                             (* server.starttls() *)
| Login (user password : string)       (* server.login(user, password) *)
| Sendmail (sender : string) (recipients : list string)
    (message : string)    (* server.sendmail(from, [to], msg.as_string()) *)
| Quit.                                (* server.quit() *)

(** The mail relay as the function meets it: which of its operations
    raise. *)
Record smtp_server : Type := {
  connect_raises : bool;
  starttls_raises : bool;
  login_raises : bool;
  sendmail_raises : bool;
  quit_raises : bool
}.

(** The exceptions that leave [send_email]. *)
Inductive mail_error : Type :=
| PortNotAnInteger         (* the ValueError of int(...) *)
| IncompleteConfiguration  (* RuntimeError("Configurare SMTP incompletă") *)
| ConnectError
| StartTlsError
| LoginError
| MessageError             (* what msg.as_string() raises *)
| SendmailError.

Section Mail.

(** [int(text)]: the integer, or [None] where it raises [ValueError]. *)
Variable py_int : string → option Z.

(** [msg.as_string()] for the message made of the sender, the recipient,
    the subject and the HTML body: its text, or [None] where it raises (a
    subject or an address that holds a header of its own). *)
Variable as_string : string → string → string → string → option string.

(** The [try] of [send_email]: the login when there are credentials, then
    the text of the message, then the mail itself. *)
Definition login_and_send (server : smtp_server)
    (smtp_user smtp_pass : option string) (mail_from mail_to : string)
    (subject html_body : string)
  : list smtp_action * result mail_error unit :=
  let send :=
    match as_string mail_from mail_to subject html_body with
    | None => ([], Raise MessageError)
    | Some message =>
        ([Sendmail mail_from [mail_to] message],
         if sendmail_raises server then Raise SendmailError else Ok ())
    end in
  if truthy smtp_user && truthy smtp_pass then
    let login := Login (default "" smtp_user) (default "" smtp_pass) in
    if login_raises server then ([login], Raise LoginError)
    else (login :: send.1, send.2)
  else send.

(** [send_email(subject, html_body)], with the environment and the relay
    passed in: the operations attempted, in order, and the outcome.  The
    [finally] attempts [quit] after the [try], whatever its outcome, and
    drops what [quit] raises. *)
Definition send_email (env : environ) (server : smtp_server)
    (subject html_body : string)
  : list smtp_action * result mail_error unit :=
  let smtp_host := getenv env "SMTP_HOST" in
  match py_int (getenv_or env "SMTP_PORT" "587") with
  | None => ([], Raise PortNotAnInteger)
  | Some smtp_port =>
      let smtp_user := getenv env "SMTP_USER" in
      let smtp_pass := getenv env "SMTP_PASS" in
      let mail_from :=
        getenv_or env "MAIL_FROM"
          (if truthy smtp_user then default "" smtp_user else "") in
      let mail_to := getenv_or env "MAIL_TO" "stkbarbershop@gmail.com" in
      let use_tls :=
        bool_decide (lower (getenv_or env "SMTP_USE_TLS" "true")
                     ∈ ["1"; "true"; "yes"]%string) in
      if negb (truthy smtp_host) || (smtp_port =? 0)
         || negb (truthy (Some mail_from)) || negb (truthy (Some mail_to))
      then ([], Raise IncompleteConfiguration)
      else
        let connect := Connect (default "" smtp_host) smtp_port in
        if connect_raises server then ([connect], Raise ConnectError)
        else if use_tls && starttls_raises server
        then ([connect; StartTls], Raise StartTlsError)
        else
          let opened := if use_tls then [connect; StartTls] else [connect] in
          let '(attempted, outcome) :=
            login_and_send server smtp_user smtp_pass mail_from mail_to
              subject html_body in
          (opened ++ attempted ++ [Quit], outcome)
  end.

End Mail.


Definition willing_server : smtp_server := {|
  connect_raises := false;
  starttls_raises := false;
  login_raises := false;
  sendmail_raises := false;
  quit_raises := false
|}.


(** A message text for the samples: the subject, a line break and the
    body; a subject that holds a line break is refused. *)
Definition sample_as_string (_ _ subject html_body : string) : option string :=
  if existsb (Ascii.eqb newline) (list_ascii_of_string subject) then None
  else Some (String.append subject (String newline html_body)).


(** A reading of decimal numerals for the samples: the port 587 and
    nothing else. *)
Definition int_587 (s : string) : option Z :=
  if String.eqb s "587" then Some 587 else None.

(** ** The diagnostic endpoint *)

(** What [from database import db] gives: the import fails, or raises
    something else, or [db] is [None], or [db] is a database that may have
    a [name] and whose [list_collection_names()] returns or raises. *)
Inductive database_module : Type :=
| NoModule                                    (* ImportError *)
| ImportRaises (error : string)               (* any other exception *)
| DbNone
| Db (name : option string) (listing : result string (list string)).

(** The texts of the [database] entry. *)
Inductive database_status : Type :=
| NotAvailable              (* "❌ Not Available" *)
| Available                 (* "✅ Available" *)
| ConnectedWorking          (* "✅ Connected & Working" *)
| ConnectedButError (e : string)  (* "⚠️  Connected but Error: " + e *)
| NotInitialized            (* "⚠️  Available but not initialized" *)
| ModuleNotFound            (* "❌ Database module not found (...)" *)
| ImportError (e : string). (* "❌ Error: " + e *)

(** The texts of the [database_url] and [database_name] entries. *)
Inductive setting_status : Type :=
| Configured                (* "✅ Configured" *)
| NameOf (name : string)    (* db.name *)
| ConnectedName             (* "✅ Connected" *)
| EnvSet                    (* "✅ Set" *)
| EnvNotSet.                (* "❌ Not Set" *)

(** The [response] dictionary; [backend] is always ["✅ Running"]. *)
Record diagnostic : Type := {
  database : database_status;
  database_url : option setting_status;
  database_name : option setting_status;
  connected : bool;          (* connection_status: "Connected" or not *)
  collections : list string
}.

(** [text[:n]] *)
Fixpoint prefix_of_text (n : nat) (s : string) : string :=
  match n, s with
  | S n', String c s' => String c (prefix_of_text n' s')
  | _, _ => EmptyString
  end.

(** [test_database()], with the module and the environment passed in: the
    dictionary is filled step by step, an exception leaving it as the steps
    before made it, and the two settings are overwritten at the end. *)
Definition test_database (module : database_module) (env : environ)
  : diagnostic :=
  let response := {|
    database := NotAvailable;
    database_url := None;
    database_name := None;
    connected := false;
    collections := []
  |} in
  let response :=
    match module with
    | NoModule =>
        {| database := ModuleNotFound;
           database_url := database_url response;
           database_name := database_name response;
           connected := connected response;
           collections := collections response |}
    | ImportRaises e =>
        {| database := ImportError (prefix_of_text 50 e);
           database_url := database_url response;
           database_name := database_name response;
           connected := connected response;
           collections := collections response |}
    | DbNone =>
        {| database := NotInitialized;
           database_url := database_url response;
           database_name := database_name response;
           connected := connected response;
           collections := collections response |}
    | Db name listing =>
        let named :=
          match name with
          | Some n => NameOf n
          | None => ConnectedName
          end in
        match listing with
        | Ok names =>
            {| database := ConnectedWorking;
               database_url := Some Configured;
               database_name := Some named;
               connected := true;
               collections := take 10 names |}
        | Raise e =>
            {| database := ConnectedButError (prefix_of_text 50 e);
               database_url := Some Configured;
               database_name := Some named;
               connected := true;
               collections := collections response |}
        end
    end in
  {| database := database response;
     database_url :=
       Some (if truthy (getenv env "DATABASE_URL") then EnvSet else EnvNotSet);
     database_name :=
       Some (if truthy (getenv env "DATABASE_NAME") then EnvSet else EnvNotSet);
     connected := connected response;
     collections := collections response |}.

(** * Properties *)

(** ** The rate limiter *)

Lemma short_window_value : RATE_LIMIT_WINDOW_SHORT = 15000000.
Proof. reflexivity. Qed.

Lemma long_window_value : RATE_LIMIT_WINDOW_LONG = 300000000.
Proof. reflexivity. Qed.

Ltac windows :=
  unfold RATE_LIMIT_WINDOW_SHORT, RATE_LIMIT_WINDOW_LONG,
    RATE_LIMIT_MAX_SHORT, RATE_LIMIT_MAX_LONG, minutes, seconds in *.

Ltac win_lia := windows; cbv beta; lia.

Lemma history_of_insert (log : request_log) ip h :
  history_of (<[ip := h]> log) ip = h.
Proof. unfold history_of. by rewrite lookup_insert_eq. Qed.

Lemma history_of_insert_ne (log : request_log) ip ip' h :
  ip ≠ ip' → history_of (<[ip := h]> log) ip' = history_of log ip'.
Proof. intros. unfold history_of. by rewrite lookup_insert_ne. Qed.

Lemma history_of_empty ip : history_of ∅ ip = [].
Proof. unfold history_of. by rewrite lookup_empty. Qed.

Lemma check_reject ip now log :
  over_limit now (prune now (history_of log ip)) →
  check_rate_limit ip now log
  = (<[ip := prune now (history_of log ip)]> log, Raise TooManyRequests).
Proof.
  intros Hover. unfold check_rate_limit.
  destruct Hover as [H | H].
  - by rewrite (bool_decide_eq_true_2 _ H).
  - rewrite (bool_decide_eq_true_2 _ H). by rewrite orb_true_r.
Qed.

Lemma check_pass ip now log :
  ¬ over_limit now (prune now (history_of log ip)) →
  check_rate_limit ip now log
  = (<[ip := prune now (history_of log ip) ++ [now]]>
       (<[ip := prune now (history_of log ip)]> log), Ok ()).
Proof.
  intros Hnot. unfold check_rate_limit, over_limit in *.
  rewrite !bool_decide_eq_false_2; [done | tauto | tauto].
Qed.

Lemma rejected_iff ip now log :
  rejected ip now log ↔ over_limit now (prune now (history_of log ip)).
Proof.
  unfold rejected. split.
  - intros H. destruct (decide (over_limit now (prune now (history_of log ip))))
      as [|Hn]; [done|].
    rewrite (check_pass _ _ _ Hn) in H. discriminate.
  - intros H. by rewrite (check_reject _ _ _ H).
Qed.

Lemma passed_iff ip now log :
  passed ip now log ↔ ¬ over_limit now (prune now (history_of log ip)).
Proof.
  unfold passed. split.
  - intros H Hover. rewrite (check_reject _ _ _ Hover) in H. discriminate.
  - intros H. by rewrite (check_pass _ _ _ H).
Qed.

Lemma history_after_rejected ip now log :
  rejected ip now log →
  history_of (log_after ip now log) ip = prune now (history_of log ip).
Proof.
  intros H. apply rejected_iff in H. unfold log_after.
  rewrite (check_reject _ _ _ H). apply history_of_insert.
Qed.

Lemma history_after_passed ip now log :
  passed ip now log →
  history_of (log_after ip now log) ip = prune now (history_of log ip) ++ [now].
Proof.
  intros H. apply passed_iff in H. unfold log_after.
  rewrite (check_pass _ _ _ H). apply history_of_insert.
Qed.

Lemma rejected_or_passed ip now log : rejected ip now log ∨ passed ip now log.
Proof.
  destruct (decide (over_limit now (prune now (history_of log ip)))).
  - left. by apply rejected_iff.
  - right. by apply passed_iff.
Qed.

Lemma history_after_other ip ip' now log :
  ip ≠ ip' → history_of (log_after ip now log) ip' = history_of log ip'.
Proof.
  intros Hne. unfold log_after.
  destruct (decide (over_limit now (prune now (history_of log ip)))) as [H|H].
  - rewrite (check_reject _ _ _ H). simpl. by apply history_of_insert_ne.
  - rewrite (check_pass _ _ _ H). simpl. by rewrite !history_of_insert_ne.
Qed.

Lemma elem_of_prune now h t :
  t ∈ prune now h ↔ now - t ≤ RATE_LIMIT_WINDOW_LONG ∧ t ∈ h.
Proof.
  exact (list_elem_of_filter (λ t, now - t ≤ RATE_LIMIT_WINDOW_LONG) h t).
Qed.

Lemma length_prune now h : (length (prune now h) ≤ length h)%nat.
Proof. apply length_filter. Qed.

Lemma short_count_pos now h t :
  t ∈ h → now - t ≤ RATE_LIMIT_WINDOW_SHORT → (1 ≤ short_count now h)%nat.
Proof.
  intros Hin Hle. unfold short_count.
  assert (t ∈ filter (λ t, now - t ≤ RATE_LIMIT_WINDOW_SHORT) h) as Hf
    by (by apply (list_elem_of_filter (λ t, now - t ≤ RATE_LIMIT_WINDOW_SHORT))).
  destruct (filter _ h); [by apply elem_of_nil in Hf | simpl; lia].
Qed.

Lemma short_count_zero now h :
  (∀ t, t ∈ h → RATE_LIMIT_WINDOW_SHORT < now - t) → short_count now h = 0%nat.
Proof.
  intros Hall. unfold short_count.
  destruct (filter _ h) as [|t l] eqn:E; [done|].
  assert (t ∈ filter (λ t, now - t ≤ RATE_LIMIT_WINDOW_SHORT) h) as Hf
    by (rewrite E; left).
  apply (list_elem_of_filter (λ t, now - t ≤ RATE_LIMIT_WINDOW_SHORT)) in Hf
    as [Hle Hin]. specialize (Hall _ Hin). lia.
Qed.

Lemma short_count_prune now h :
  short_count now (prune now h) = short_count now h.
Proof.
  unfold short_count, prune. rewrite list_filter_filter.
  f_equal. apply list_filter_iff. intros t. win_lia.
Qed.

Lemma run_cons ip now rest log :
  run ip (now :: rest) log
  = ((check_rate_limit ip now log).2 :: (run ip rest (log_after ip now log)).1,
     (run ip rest (log_after ip now log)).2).
Proof.
  simpl. unfold log_after.
  destruct (check_rate_limit ip now log) as [log1 r]. simpl.
  by destruct (run ip rest log1).
Qed.

Lemma run_length ip nows : ∀ log, length (run ip nows log).1 = length nows.
Proof.
  induction nows as [|now rest IH]; intros log; [done|].
  rewrite run_cons. simpl. by rewrite IH.
Qed.

Lemma step_pass_known ip now log h :
  history_of log ip = h →
  ¬ over_limit now (prune now h) →
  passed ip now log ∧ history_of (log_after ip now log) ip = prune now h ++ [now].
Proof.
  intros <- Hnot. assert (passed ip now log) by by apply passed_iff.
  split; [done | by apply history_after_passed].
Qed.

Lemma step_reject_known ip now log h :
  history_of log ip = h →
  over_limit now (prune now h) →
  rejected ip now log ∧ history_of (log_after ip now log) ip = prune now h.
Proof.
  intros <- Hover. assert (rejected ip now log) by by apply rejected_iff.
  split; [done | by apply history_after_rejected].
Qed.

(** Evaluation of the two list comprehensions on a history that is written
    out, the comparisons settled by arithmetic. *)
Ltac filt :=
  repeat first
    [ rewrite filter_nil
    | rewrite filter_cons_True by win_lia
    | rewrite filter_cons_False by win_lia ].

Ltac limit_test :=
  unfold over_limit, short_count, prune; filt; cbn [length app]; win_lia.

(** A second request no later than 15 seconds after one that passed. *)
Lemma second_within_short_rejected ip t1 t2 log :
  passed ip t1 log →
  t2 - t1 ≤ RATE_LIMIT_WINDOW_SHORT →
  rejected ip t2 (log_after ip t1 log).
Proof.
  intros Hpass Hclose. apply rejected_iff. left.
  rewrite short_count_prune, (history_after_passed _ _ _ Hpass).
  apply (short_count_pos _ _ t1); [|done].
  apply elem_of_app. right. apply list_elem_of_singleton. done.
Qed.

Lemma fresh_passes ip now log :
  prune now (history_of log ip) = [] → passed ip now log.
Proof.
  intros Hfresh. apply passed_iff. rewrite Hfresh.
  unfold over_limit, short_count. simpl. win_lia.
Qed.

Ltac filt_in H :=
  unfold prune in H;
  repeat first
    [ rewrite filter_nil in H
    | rewrite filter_cons_True in H by win_lia
    | rewrite filter_cons_False in H by win_lia ];
  cbn [app] in H.

(** One call on a table whose history for the client is known: the call
    passes, or is rejected, and the history it leaves is known again. *)
Ltac call_passes :=
  lazymatch goal with
  | H : history_of ?l ?ip = ?h |- context [log_after ?ip ?now ?l] =>
      let H' := fresh "H" in
      destruct (step_pass_known ip now l h H) as [_ H']; [limit_test|];
      filt_in H'; clear H;
      generalize dependent (log_after ip now l); intros
  end.

Ltac call_rejected :=
  lazymatch goal with
  | H : history_of ?l ?ip = ?h |- context [log_after ?ip ?now ?l] =>
      let H' := fresh "H" in
      destruct (step_reject_known ip now l h H) as [_ H']; [limit_test|];
      filt_in H'; clear H;
      generalize dependent (log_after ip now l); intros
  end.

(** Six evenly spaced requests of a client without retained history. *)
Lemma sixth_of_even_run_rejected ip t d log :
  prune t (history_of log ip) = [] →
  RATE_LIMIT_WINDOW_SHORT ≤ d →
  5 * d ≤ RATE_LIMIT_WINDOW_LONG →
  (run ip (evenly 6 t d) log).1 !! 5%nat = Some (Raise TooManyRequests).
Proof.
  intros Hfresh Hd Hspan. simpl evenly.
  rewrite !run_cons. cbn [fst snd lookup list_lookup]. f_equal.
  pose proof (fresh_passes _ _ _ Hfresh) as P1.
  pose proof (history_after_passed _ _ _ P1) as H1. rewrite Hfresh in H1.
  cbn [app] in H1. clear P1 Hfresh.
  generalize dependent (log_after ip t log). intros l1 H1.
  destruct (decide (d = RATE_LIMIT_WINDOW_SHORT)) as [->|Hne].
  - (* every second request falls on the boundary of the short window *)
    call_rejected. call_passes. call_rejected. call_passes.
    apply rejected_iff.
    lazymatch goal with H : history_of _ _ = _ |- _ => rewrite H end.
    limit_test.
  - (* the first five pass and fill the long window *)
    do 4 call_passes.
    apply rejected_iff.
    lazymatch goal with H : history_of _ _ = _ |- _ => rewrite H end.
    limit_test.
Qed.

(** C1, as the code has it.  A call is rejected exactly when, after
    pruning, at least one retained timestamp lies within the last 15
    seconds or at least five timestamps are retained (all of them within
    the last 5 minutes).  A request no later than 15 seconds after one that
    passed is rejected, whatever else the history holds; so the second of
    two such requests of a client without retained history is rejected.  Of
    six evenly spaced requests of a client without retained history, at
    least 15 seconds apart and spanning at most 5 minutes, the sixth is
    rejected.  Requests that were themselves rejected do not count: after a
    rejected request, or with older requests still retained, the later
    request may pass. *)
Theorem rejects_iff_over_threshold :
  (∀ ip now log,
     rejected ip now log
     ↔ (1 ≤ length (filter (λ t, (now - t ≤ seconds 15)%Z)
                      (prune now (history_of log ip)))
        ∨ 5 ≤ length (prune now (history_of log ip)))%nat)
  ∧ (∀ t now h, t ∈ prune now h → now - t ≤ minutes 5)
  ∧ (∀ ip t1 t2 log,
       passed ip t1 log → t2 - t1 ≤ seconds 15 →
       rejected ip t2 (log_after ip t1 log))
  ∧ (∀ ip t1 t2 log,
       prune t1 (history_of log ip) = [] → t2 - t1 ≤ seconds 15 →
       passed ip t1 log ∧ rejected ip t2 (log_after ip t1 log))
  ∧ (∀ ip t d log,
       prune t (history_of log ip) = [] →
       seconds 15 ≤ d → 5 * d ≤ minutes 5 →
       (run ip (evenly 6 t d) log).1 !! 5%nat = Some (Raise TooManyRequests)).
Proof.
  split; [|split; [|split; [|split]]].
  - intros ip now log. apply rejected_iff.
  - intros t now h Hin. by apply elem_of_prune in Hin as [? _].
  - apply second_within_short_rejected.
  - intros ip t1 t2 log Hfresh Hclose.
    pose proof (fresh_passes _ _ _ Hfresh) as Hpass.
    split; [done | by apply second_within_short_rejected].
  - apply sixth_of_even_run_rejected.
Qed.

Lemma rejects_iff_over_threshold_witness :
  rejected "10.0.0.1" (seconds 100) (log_after "10.0.0.1" (seconds 90) ∅)
  ∧ (run "10.0.0.1" (evenly 6 0 (seconds 60)) ∅).1 !! 5%nat
    = Some (Raise TooManyRequests).
Proof.
  destruct rejects_iff_over_threshold as (_ & _ & Hpair & _ & Hsix).
  split.
  - apply Hpair; [reflexivity | vm_compute; discriminate].
  - apply Hsix; [reflexivity | vm_compute; discriminate
                 | vm_compute; discriminate].
Defined.

(** Neither corollary holds of every client.  A client let in at seconds
    0, 20, 40, 60 and 80 is refused at second 300, its five requests all
    being retained, and let in one second later, the oldest being pruned:
    the second of two requests one second apart passes.  And a client let
    in at seconds -300, -280, -260, -240 and -220 that then asks at seconds
    0, 60, ..., 300 is refused the first time only: its sixth request
    passes. *)
Lemma later_request_of_pair_or_six_passes :
  ((run "10.0.0.1"
      [0; seconds 20; seconds 40; seconds 60; seconds 80; seconds 300;
       seconds 301] ∅).1
   = [Ok (); Ok (); Ok (); Ok (); Ok (); Raise TooManyRequests; Ok ()])
  ∧ ((run "10.0.0.1"
        [seconds (-300); seconds (-280); seconds (-260); seconds (-240);
         seconds (-220)] ∅).1
     = [Ok (); Ok (); Ok (); Ok (); Ok ()]
     ∧ (run "10.0.0.1" (evenly 6 0 (seconds 60))
          (run "10.0.0.1"
             [seconds (-300); seconds (-280); seconds (-260); seconds (-240);
              seconds (-220)] ∅).2).1
       = [Raise TooManyRequests; Ok (); Ok (); Ok (); Ok (); Ok ()]).
Proof. repeat split; vm_compute; reflexivity. Qed.

(** C10. Both windows are closed at their far end.  A request exactly 15
    seconds after the only recorded one is rejected, while one microsecond
    later it passes; a timestamp exactly 5 minutes old survives pruning and
    is the fifth that makes the long threshold, while one microsecond older
    it is dropped and the request passes. *)
Theorem window_bounds_inclusive :
  (∀ ip t0 log,
     history_of log ip = [t0] → rejected ip (t0 + seconds 15) log)
  ∧ (∀ ip t0 log,
       history_of log ip = [t0] → passed ip (t0 + seconds 15 + 1) log)
  ∧ (∀ now t h, t ∈ h → now - t = minutes 5 → t ∈ prune now h)
  ∧ (∀ ip now rest log,
       history_of log ip = (now - minutes 5) :: rest →
       length (prune now rest) = 4%nat →
       rejected ip now log)
  ∧ (∀ ip now rest log,
       history_of log ip = (now - minutes 5 - 1) :: rest →
       length (prune now rest) = 4%nat →
       short_count now rest = 0%nat →
       passed ip now log).
Proof.
  split; [|split; [|split; [|split]]].
  - intros ip t0 log H. apply rejected_iff. rewrite H. limit_test.
  - intros ip t0 log H. apply passed_iff. rewrite H. limit_test.
  - intros now t h Hin Hage. apply elem_of_prune. split; [|done].
    rewrite Hage. done.
  - intros ip now rest log H Hlen. apply rejected_iff. rewrite H. right.
    unfold prune, datetime in *. rewrite filter_cons_True by win_lia.
    cbn [length]. rewrite Hlen. win_lia.
  - intros ip now rest log H Hlen Hshort. apply passed_iff. rewrite H.
    unfold over_limit. rewrite short_count_prune.
    unfold prune, short_count, datetime in *.
    rewrite !filter_cons_False by win_lia.
    rewrite Hlen, Hshort. win_lia.
Qed.

Lemma window_bounds_inclusive_witness :
  rejected "10.0.0.1" (seconds 40) {[ "10.0.0.1"%string := [seconds 25] ]}
  ∧ rejected "10.0.0.1" (seconds 400)
      {[ "10.0.0.1"%string :=
           [seconds 100; seconds 150; seconds 200; seconds 250; seconds 300] ]}.
Proof.
  destruct window_bounds_inclusive as (Hshort & _ & _ & Hlong & _).
  split.
  - apply (Hshort "10.0.0.1"%string (seconds 25)). reflexivity.
  - apply (Hlong "10.0.0.1"%string (seconds 400)
             [seconds 150; seconds 200; seconds 250; seconds 300]);
      reflexivity.
Defined.

(** A run of calls that are all rejected only prunes the history. *)
Lemma rejected_run_shrinks ip nows : ∀ log,
  Forall (λ r, r = Raise TooManyRequests) (run ip nows log).1 →
  ∀ t, t ∈ history_of (run ip nows log).2 ip → t ∈ history_of log ip.
Proof.
  induction nows as [|now rest IH]; intros log Hall t Hin; [done|].
  rewrite run_cons in Hall, Hin. simpl in Hall, Hin.
  apply Forall_cons in Hall as [Hrej Hrest].
  specialize (IH _ Hrest _ Hin).
  rewrite (history_after_rejected ip now log Hrej) in IH.
  by apply elem_of_prune in IH as [_ ?].
Qed.

Lemma stale_history_pruned now h :
  (∀ t, t ∈ h → RATE_LIMIT_WINDOW_LONG < now - t) → prune now h = [].
Proof.
  intros Hstale. destruct (prune now h) as [|t l] eqn:E; [done|].
  assert (t ∈ prune now h) as Hin by (rewrite E; left).
  apply elem_of_prune in Hin as [Hle Hin]. specialize (Hstale _ Hin). lia.
Qed.

(** C2. A rejected call stores the pruned history and nothing else: its
    own instant is not appended, so the stored history holds that instant
    only when the history before the call already held it.  Hence a client
    rejected any number of times in a row, whose next attempt comes more
    than 5 minutes (the longer window) after everything recorded for it,
    passes, and its history is then that attempt alone. *)
Theorem rejected_attempt_not_recorded :
  (∀ ip now log,
     rejected ip now log →
     history_of (log_after ip now log) ip = prune now (history_of log ip)
     ∧ (now ∉ history_of log ip → now ∉ history_of (log_after ip now log) ip))
  ∧ (∀ ip nows now log,
       Forall (λ r, r = Raise TooManyRequests) (run ip nows log).1 →
       (∀ t, t ∈ history_of log ip → minutes 5 < now - t) →
       passed ip now (run ip nows log).2
       ∧ history_of (log_after ip now (run ip nows log).2) ip = [now]).
Proof.
  split.
  - intros ip now log Hrej.
    pose proof (history_after_rejected _ _ _ Hrej) as Heq.
    split; [done|]. intros Hnot Hin. apply Hnot.
    rewrite Heq in Hin. by apply elem_of_prune in Hin as [_ ?].
  - intros ip nows now log Hall Hwait.
    assert (prune now (history_of (run ip nows log).2 ip) = []) as Hempty.
    { apply stale_history_pruned. intros t Hin.
      apply Hwait. by apply (rejected_run_shrinks ip nows log). }
    pose proof (fresh_passes _ _ _ Hempty) as Hpass.
    split; [done|].
    rewrite (history_after_passed _ _ _ Hpass), Hempty. done.
Qed.

(** A client admitted at second 10 and then turned away ten times within
    the following seconds is admitted again at second 400. *)
Lemma rejected_attempt_not_recorded_witness :
  passed "10.0.0.1" (seconds 400)
    (run "10.0.0.1"
       [seconds 11; seconds 12; seconds 13; seconds 14; seconds 15;
        seconds 16; seconds 17; seconds 18; seconds 19; seconds 20]
       {[ "10.0.0.1"%string := [seconds 10] ]}).2.
Proof.
  refine (proj1 (proj2 rejected_attempt_not_recorded "10.0.0.1"%string
                   _ (seconds 400) {[ "10.0.0.1"%string := [seconds 10] ]}
                   _ _)).
  - vm_compute. repeat constructor.
  - intros t Hin. vm_compute in Hin.
    apply list_elem_of_singleton in Hin as ->. vm_compute. reflexivity.
Defined.

(** The claim that the stored history never holds the instant of a rejected
    call fails for a call at the very instant of a recorded request. *)
Lemma rejected_instant_already_recorded :
  rejected "10.0.0.1" 100 {[ "10.0.0.1"%string := [100] ]}
  ∧ 100 ∈ history_of
            (log_after "10.0.0.1" 100 {[ "10.0.0.1"%string := [100] ]})
            "10.0.0.1".
Proof.
  split; [reflexivity|]. vm_compute. left.
Qed.

(** The stored list never grows beyond the long-window maximum. *)
Lemma reachable_bounded log :
  reachable log → ∀ ip, (length (history_of log ip) ≤ 5)%nat.
Proof.
  induction 1 as [|ip now log Hreach IH]; intros ip'.
  - rewrite history_of_empty. simpl. lia.
  - destruct (decide (ip = ip')) as [<-|Hne].
    + destruct (rejected_or_passed ip now log) as [Hrej | Hpass].
      * rewrite (history_after_rejected _ _ _ Hrej).
        etransitivity; [apply length_prune | apply IH].
      * rewrite (history_after_passed _ _ _ Hpass).
        apply passed_iff in Hpass. unfold over_limit in Hpass.
        rewrite length_app. simpl. win_lia.
    + rewrite history_after_other by done. apply IH.
Qed.

(** C8. After every call, passed or rejected, every timestamp stored for
    the checked client is at most 5 minutes older than the call's instant,
    a rejected call having stored the pruned history; and in every table
    the calls can produce, no client's list is longer than five. *)
Theorem stored_history_bounded :
  (∀ ip now log t,
     t ∈ history_of (log_after ip now log) ip → now - t ≤ minutes 5)
  ∧ (∀ ip now log,
       rejected ip now log →
       history_of (log_after ip now log) ip = prune now (history_of log ip))
  ∧ (∀ ip now log,
       reachable log →
       (length (history_of (log_after ip now log) ip) ≤ 5)%nat)
  ∧ (∀ log ip, reachable log → (length (history_of log ip) ≤ 5)%nat).
Proof.
  split; [|split; [|split]].
  - intros ip now log t Hin.
    destruct (rejected_or_passed ip now log) as [Hrej | Hpass].
    + rewrite (history_after_rejected _ _ _ Hrej) in Hin.
      by apply elem_of_prune in Hin as [? _].
    + rewrite (history_after_passed _ _ _ Hpass) in Hin.
      apply elem_of_app in Hin as [Hin | Hin].
      * by apply elem_of_prune in Hin as [? _].
      * apply list_elem_of_singleton in Hin as ->. win_lia.
  - apply history_after_rejected.
  - intros ip now log Hreach.
    apply reachable_bounded. by constructor.
  - intros log ip Hreach. by apply reachable_bounded.
Qed.

Lemma stored_history_bounded_witness :
  (length (history_of (log_after "10.0.0.1" (seconds 30)
                         (log_after "10.0.0.1" (seconds 10) ∅))
             "10.0.0.1") ≤ 5)%nat.
Proof.
  apply (proj1 (proj2 (proj2 stored_history_bounded))).
  apply reachable_step. apply reachable_empty.
Defined.

(** Requests that are spaced are also spaced from every later one. *)
Lemma spaced_later now rest :
  spaced (now :: rest) → ∀ n, n ∈ rest → RATE_LIMIT_WINDOW_SHORT < n - now.
Proof.
  revert now. induction rest as [|t rest IH]; intros now Hsp n Hin.
  - by apply elem_of_nil in Hin.
  - destruct Hsp as [Hgap Hsp].
    apply elem_of_cons in Hin as [-> | Hin]; [done|].
    specialize (IH _ Hsp _ Hin). win_lia.
Qed.

Lemma spaced_tail now rest : spaced (now :: rest) → spaced rest.
Proof. destruct rest; [done|]. by intros [_ ?]. Qed.

Lemma filter_sublist_mono {A} (P : A → Prop) `{!∀ x, Decision (P x)}
    (l1 l2 : list A) :
  l1 `sublist_of` l2 → filter P l1 `sublist_of` filter P l2.
Proof.
  induction 1 as [|x l1 l2 _ IH|x l1 l2 _ IH]; [constructor| |].
  - rewrite !filter_cons. destruct (decide (P x)); [by constructor | done].
  - rewrite filter_cons. destruct (decide (P x)); [by constructor | done].
Qed.

Lemma filter_sublist_length {A} (P : A → Prop) `{!∀ x, Decision (P x)}
    (l1 l2 : list A) :
  l1 `sublist_of` l2 → (length (filter P l1) ≤ length (filter P l2))%nat.
Proof. intros Hsub. apply sublist_length. by apply filter_sublist_mono. Qed.

Lemma filter_agree {A} (P Q : A → Prop)
    `{!∀ x, Decision (P x), !∀ x, Decision (Q x)} (l : list A) :
  (∀ x, x ∈ l → P x ↔ Q x) → filter P l = filter Q l.
Proof.
  induction l as [|x l IH]; intros Hpq; [done|].
  rewrite !filter_cons.
  assert (filter P l = filter Q l) as ->
    by (apply IH; intros y Hy; apply Hpq; by right).
  pose proof (Hpq x ltac:(left)) as Hx.
  destruct (decide (P x)), (decide (Q x)); tauto || done.
Qed.

(** The invariant behind C7: the stored history is drawn from the requests
    made so far ([past]), all of which lie more than the short window
    before the requests to come. *)
Lemma run_all_pass ip nows : ∀ log past,
  history_of log ip `sublist_of` past →
  (∀ t n, t ∈ past → n ∈ nows → RATE_LIMIT_WINDOW_SHORT < n - t) →
  spaced nows →
  (∀ w, (in_window w (past ++ nows) ≤ 5)%nat) →
  Forall (λ r, r = Ok ()) (run ip nows log).1.
Proof.
  induction nows as [|now rest IH]; intros log past Hsub Hgap Hsp Hwin.
  - constructor.
  - rewrite run_cons. simpl.
    assert (passed ip now log) as Hpass.
    { apply passed_iff. intros [Hshort | Hlong].
      - rewrite short_count_prune, short_count_zero in Hshort;
          [unfold RATE_LIMIT_MAX_SHORT in Hshort; lia|].
        intros t Hin. apply (Hgap t now); [|left].
        by apply (sublist_subseteq _ _ Hsub).
      - specialize (Hwin now). unfold in_window in Hwin.
        rewrite filter_app, length_app in Hwin.
        rewrite filter_cons_True in Hwin by win_lia.
        cbn [length] in Hwin.
        assert (length (prune now (history_of log ip))
                ≤ length (filter (λ t, (now - RATE_LIMIT_WINDOW_LONG ≤ t
                                        ∧ t ≤ now)%Z) past))%nat as Hle.
        { etransitivity;
            [apply (filter_sublist_length _ _ _ Hsub)|].
          apply Nat.eq_le_incl. f_equal. apply filter_agree.
          intros t Hin. specialize (Hgap t now Hin ltac:(left)).
          win_lia. }
        unfold RATE_LIMIT_MAX_LONG, datetime in *. lia. }
    constructor; [done|].
    apply (IH _ (past ++ [now])).
    + rewrite (history_after_passed _ _ _ Hpass).
      apply sublist_app; [|done].
      etransitivity; [apply sublist_filter | done].
    + intros t n Hin Hn. apply elem_of_app in Hin as [Hin | Hin].
      * apply Hgap; [done | by right].
      * apply list_elem_of_singleton in Hin as ->.
        by apply (spaced_later _ rest).
    + by apply (spaced_tail now).
    + intros w. rewrite <- app_assoc. apply Hwin.
Qed.

(** C7. A client without recorded history whose requests come strictly
    more than 15 seconds after one another, with no more than five of them
    in any rolling 5-minute window, has every request admitted. *)
Theorem spaced_requests_all_pass ip nows log :
  history_of log ip = [] →
  spaced nows →
  (∀ w, (in_window w nows ≤ 5)%nat) →
  Forall (λ r, r = Ok ()) (run ip nows log).1
  ∧ length (run ip nows log).1 = length nows.
Proof.
  intros Hfresh Hsp Hwin. split; [|apply run_length].
  apply (run_all_pass ip nows log []); try done.
  - rewrite Hfresh. done.
  - intros t n Hin. by apply elem_of_nil in Hin.
Qed.

(** Six requests 61 seconds apart: no window of 5 minutes holds them all. *)
Lemma spaced_requests_all_pass_witness :
  Forall (λ r, r = Ok ())
    (run "10.0.0.1"
       [0; seconds 61; seconds 122; seconds 183; seconds 244; seconds 305]
       ∅).1.
Proof.
  refine (proj1 (spaced_requests_all_pass "10.0.0.1"%string
                   [0; seconds 61; seconds 122; seconds 183; seconds 244;
                    seconds 305] ∅ _ _ _)).
  - reflexivity.
  - vm_compute. repeat split.
  - intros w. unfold in_window.
    change [0; seconds 61; seconds 122; seconds 183; seconds 244; seconds 305]
      with ([0] ++ [seconds 61; seconds 122; seconds 183; seconds 244]
                ++ [seconds 305]).
    rewrite !filter_app, !length_app.
    pose proof (length_filter
      (λ t, w - RATE_LIMIT_WINDOW_LONG ≤ t ∧ t ≤ w)
      [seconds 61; seconds 122; seconds 183; seconds 244]) as Hmid.
    simpl in Hmid.
    destruct (decide (w - RATE_LIMIT_WINDOW_LONG ≤ 0 ∧ 0 ≤ w)) as [Hfirst|Hfirst].
    + rewrite (filter_cons_False _ (seconds 305)).
      * rewrite filter_cons_True by done. simpl. lia.
      * unfold seconds. win_lia.
    + rewrite (filter_cons_False _ 0) by done.
      pose proof (length_filter
        (λ t, w - RATE_LIMIT_WINDOW_LONG ≤ t ∧ t ≤ w) [seconds 305]) as Hlast.
      simpl in *. lia.
Defined.

(** ** The validation of the request *)

(** C9. The anti-automation check passes exactly when the two addends sum,
    as integers, to the supplied result, and raises [CaptchaFailed]
    otherwise: (2, 3, 5) passes and (2, 3, 6) fails. *)
Theorem captcha_sum_exact :
  (∀ self,
     validate_captcha self = Ok ()
     ↔ captcha_a self + captcha_b self = captcha_result self)
  ∧ (∀ self,
       captcha_a self + captcha_b self ≠ captcha_result self →
       validate_captcha self = Raise CaptchaFailed)
  ∧ (∀ self,
       captcha_a self = 2 → captcha_b self = 3 → captcha_result self = 5 →
       validate_captcha self = Ok ())
  ∧ (∀ self,
       captcha_a self = 2 → captcha_b self = 3 → captcha_result self = 6 →
       validate_captcha self = Raise CaptchaFailed).
Proof.
  assert (∀ self,
            validate_captcha self = Ok ()
            ↔ captcha_a self + captcha_b self = captcha_result self) as Hiff.
  { intros self. unfold validate_captcha. case_bool_decide; split;
      [discriminate | done | lia | done]. }
  assert (∀ self,
            captcha_a self + captcha_b self ≠ captcha_result self →
            validate_captcha self = Raise CaptchaFailed) as Hfail.
  { intros self Hne. unfold validate_captcha.
    by rewrite bool_decide_eq_true_2. }
  split; [done | split; [done | split]].
  - intros self Ha Hb Hr. apply Hiff. lia.
  - intros self Ha Hb Hr. apply Hfail. lia.
Qed.

Lemma captcha_sum_exact_witness : validate_captcha sample_request = Ok ().
Proof.
  apply (proj1 (proj2 (proj2 captcha_sum_exact)) sample_request);
    reflexivity.
Defined.

(** C3. The combined instant of date and time must be strictly later than
    the clock reading: then the check passes; an instant earlier than or
    equal to the reading raises [PastDateTime].  In particular the instant
    of the reading itself is refused, and one microsecond later is
    accepted. *)
Theorem future_check_strict
    (strptime : string → string → option datetime)
    (self : AppointmentRequest) (now dt : datetime) :
  combined_datetime strptime self = Some dt →
  (now < dt → validate_future strptime self now = Ok ())
  ∧ (dt ≤ now → validate_future strptime self now = Raise PastDateTime)
  ∧ validate_future strptime self dt = Raise PastDateTime
  ∧ validate_future strptime self (dt - 1) = Ok ().
Proof.
  intros Hdt. unfold validate_future. rewrite Hdt.
  repeat split; intros; case_bool_decide; done || lia.
Qed.

Lemma future_check_strict_witness :
  validate_future strptime_const sample_request 1000 = Raise PastDateTime
  ∧ validate_future strptime_const sample_request 999 = Ok ().
Proof.
  split.
  - apply (future_check_strict strptime_const sample_request 1000 1000
             eq_refl).
  - apply (future_check_strict strptime_const sample_request 999 1000
             eq_refl).
Defined.

Lemma length_lstrip s : (String.length (lstrip s) ≤ String.length s)%nat.
Proof. induction s as [|c s IH]; simpl; [done|]. destruct (is_space c); simpl; lia. Qed.

Lemma length_rstrip s : (String.length (rstrip s) ≤ String.length s)%nat.
Proof.
  induction s as [|c s IH]; simpl; [done|].
  destruct (rstrip s); [destruct (is_space c)|]; simpl in *; lia.
Qed.

Lemma length_strip s : (String.length (strip s) ≤ String.length s)%nat.
Proof.
  unfold strip. etransitivity; [apply length_rstrip | apply length_lstrip].
Qed.

(** C5, as the code has it.  The model declares [min_length=2] and no
    trimming: the name passes exactly when the text as received has at
    least 2 characters, and it is retained as received.  A name of at least
    2 characters after trimming therefore passes, but so does a single
    letter between spaces. *)
Theorem full_name_min_length_untrimmed :
  (∀ v, check_full_name v = Ok v ↔ (2 ≤ String.length v)%nat)
  ∧ (∀ v, (String.length v < 2)%nat → check_full_name v = Raise InvalidName)
  ∧ (∀ v, (2 ≤ String.length (strip v))%nat → check_full_name v = Ok v).
Proof.
  assert (∀ v, (2 ≤ String.length v)%nat → check_full_name v = Ok v) as Hok.
  { intros v Hlen. unfold check_full_name. by rewrite bool_decide_eq_true_2. }
  split; [|split].
  - intros v. split; [|apply Hok].
    unfold check_full_name. case_bool_decide; [done | discriminate].
  - intros v Hlen. unfold check_full_name.
    rewrite bool_decide_eq_false_2; [done | lia].
  - intros v Hlen. apply Hok. pose proof (length_strip v). lia.
Qed.

Lemma full_name_min_length_untrimmed_witness :
  check_full_name "Ion Popescu" = Ok "Ion Popescu"%string.
Proof.
  apply (proj2 (proj2 full_name_min_length_untrimmed)).
  vm_compute. repeat constructor.
Defined.

(** One letter between two spaces has trimmed length 1 and passes. *)
Lemma padded_single_letter_accepted :
  String.length (strip " a ") = 1%nat
  ∧ check_full_name " a " = Ok " a "%string.
Proof. split; reflexivity. Qed.

(** *** The phone pattern *)

Lemma in_class_digit c : in_class [("0", "9")%char] c = is_digit c.
Proof. unfold in_class, is_digit. cbn [existsb]. by rewrite orb_false_r. Qed.

Lemma in_class_plus c : in_class [("+", "+")%char] c = Ascii.eqb c "+".
Proof.
  unfold in_class. cbn [existsb]. rewrite orb_false_r.
  destruct (Ascii.eqb_spec c "+") as [->|Hne]; [reflexivity|].
  apply andb_false_iff.
  destruct (N.leb_spec (code "+") (code c)) as [H1|]; [|by left].
  destruct (N.leb_spec (code c) (code "+")) as [H2|]; [|by right].
  exfalso. apply Hne.
  rewrite <- (ascii_N_embedding c), <- (ascii_N_embedding "+").
  f_equal. unfold code in *. lia.
Qed.

Lemma digit_not_plus c : is_digit c = true → Ascii.eqb c "+" = false.
Proof.
  intros Hd. destruct (Ascii.eqb_spec c "+") as [->|]; [|done].
  vm_compute in Hd. discriminate.
Qed.

Lemma newline_not_digit : is_digit newline = false.
Proof. reflexivity. Qed.

Lemma at_eol_ends s : at_eol s = true ↔ ends_at s EmptyString.
Proof.
  unfold ends_at. destruct s as [|c [|c' s]]; simpl.
  - split; [by left | done].
  - destruct (Ascii.eqb_spec c newline) as [->|Hne].
    + split; [by right | done].
    + split; [done|]. intros [H|H]; [discriminate|].
      injection H as H. by destruct Hne.
  - split; [done|]. intros [H|H]; discriminate.
Qed.

Lemma ends_at_cons c s body :
  ends_at s body → ends_at (String c s) (String c body).
Proof. intros [-> | ->]; [by left | by right]. Qed.

(** The digits of the pattern followed by its [$]. *)
Lemma rep_digits_eol hi : ∀ lo pos s,
  rep (matching (Class [("0", "9")%char])) hi lo pos s
      (λ _ s', at_eol s' && true) = true
  ↔ ∃ body, ends_at s body ∧ all_digits body = true
            ∧ (lo ≤ String.length body ≤ hi)%nat.
Proof.
  induction hi as [|hi IH]; intros lo pos s.
  - cbn [rep]. rewrite andb_true_r, andb_true_iff, Nat.eqb_eq, at_eol_ends.
    split.
    + intros [-> Hend]. exists EmptyString.
      cbn [all_digits String.length]. repeat split; done || lia.
    + intros ([|c body] & Hend & _ & Hlen); cbn [String.length] in Hlen;
        [|lia].
      split; [lia | done].
  - cbn [rep]. rewrite orb_true_iff. split.
    + intros [Hmore | Hstop].
      * cbn [matching] in Hmore. destruct s as [|c s]; [done|].
        apply andb_true_iff in Hmore as [Hc Hrest].
        rewrite in_class_digit in Hc.
        apply IH in Hrest as (body & Hend & Hdig & Hlen).
        exists (String c body). split; [by apply ends_at_cons|].
        cbn [all_digits String.length]. rewrite Hc, Hdig.
        split; [done | lia].
      * rewrite andb_true_r, andb_true_iff, Nat.eqb_eq, at_eol_ends in Hstop.
        destruct Hstop as [-> Hend].
        exists EmptyString. cbn [all_digits String.length].
        repeat split; done || lia.
    + intros ([|c body] & Hend & Hdig & Hlen).
      * right. rewrite andb_true_r, andb_true_iff, Nat.eqb_eq, at_eol_ends.
        cbn [String.length] in Hlen. split; [lia | done].
      * left. cbn [all_digits String.length] in Hdig, Hlen.
        apply andb_true_iff in Hdig as [Hc Hdig].
        assert (∃ s', s = String c s' ∧ ends_at s' body) as (s' & -> & Hend').
        { destruct Hend as [-> | ->]; eexists; (split; [reflexivity|]);
            [by left | by right]. }
        cbn [matching]. rewrite in_class_digit, Hc. cbn [andb].
        apply IH. exists body. split; [done | split; [done | lia]].
Qed.

(** What [PHONE_REGEX] matches: a text of the phone shape, or such a text
    and one final newline. *)
Lemma phone_regex_matches s :
  re_match PHONE_REGEX s = true
  ↔ ∃ body, ends_at s body ∧ phone_shape body = true.
Proof.
  unfold re_match, PHONE_REGEX.
  change (matching _ 0%nat s (λ _ _, true))
    with (matching (Class [("+", "+")%char]) 0%nat s
            (λ pos' s', rep (matching (Class [("0", "9")%char])) 15 8 pos' s'
                          (λ _ s'', at_eol s'' && true))
          || rep (matching (Class [("0", "9")%char])) 15 8 0%nat s
               (λ _ s'', at_eol s'' && true)).
  rewrite orb_true_iff. split.
  - intros [Hplus | Hbare].
    + cbn [matching] in Hplus. destruct s as [|c s]; [done|].
      apply andb_true_iff in Hplus as [Hc Hrest].
      rewrite in_class_plus in Hc. apply Ascii.eqb_eq in Hc as ->.
      apply rep_digits_eol in Hrest as (body & Hend & Hdig & Hlen).
      exists (String "+" body). split; [by apply ends_at_cons|].
      unfold phone_shape. rewrite Ascii.eqb_refl, Hdig. cbn [andb].
      apply andb_true_iff. split; apply Nat.leb_le; lia.
    + apply rep_digits_eol in Hbare as (body & Hend & Hdig & Hlen).
      exists body. split; [done|].
      unfold phone_shape.
      destruct body as [|c body]; [cbn [String.length] in Hlen; lia|].
      pose proof Hdig as Hdig'. cbn [all_digits] in Hdig'.
      apply andb_true_iff in Hdig' as [Hc _].
      rewrite (digit_not_plus _ Hc), Hdig. cbn [andb].
      apply andb_true_iff. split; apply Nat.leb_le; lia.
  - intros (body & Hend & Hshape). unfold phone_shape in Hshape.
    destruct body as [|c body].
    { vm_compute in Hshape. discriminate. }
    destruct (Ascii.eqb_spec c "+") as [->|Hne].
    + left. apply andb_true_iff in Hshape as [Hshape Hhi].
      apply andb_true_iff in Hshape as [Hdig Hlo].
      apply Nat.leb_le in Hlo, Hhi.
      assert (∃ s', s = String "+" s' ∧ ends_at s' body) as (s' & -> & Hend').
      { destruct Hend as [-> | ->]; eexists; (split; [reflexivity|]);
          [by left | by right]. }
      cbn [matching]. rewrite in_class_plus, Ascii.eqb_refl. cbn [andb].
      apply rep_digits_eol. exists body. split; [done | split; [done | lia]].
    + right. apply andb_true_iff in Hshape as [Hshape Hhi].
      apply andb_true_iff in Hshape as [Hdig Hlo].
      apply Nat.leb_le in Hlo, Hhi.
      apply rep_digits_eol. exists (String c body).
      split; [done | split; [done | lia]].
Qed.
(** *** Normalisation of the phone *)

Lemma last_char_cons c s :
  s ≠ EmptyString → last_char (String c s) = last_char s.
Proof. destruct s; [done|]. reflexivity. Qed.

Lemma last_char_some s : s ≠ EmptyString → ∃ c, last_char s = Some c.
Proof.
  induction s as [|c s IH]; [done|]. intros _.
  destruct s as [|c' s]; [by exists c|].
  rewrite last_char_cons by done. by apply IH.
Qed.

Lemma append_cons b body s :
  String.append (String b body) s = String b (String.append body s).
Proof. reflexivity. Qed.

Lemma last_char_append body c :
  last_char (String.append body (String c EmptyString)) = Some c.
Proof.
  induction body as [|b body IH]; [done|].
  rewrite append_cons, last_char_cons; [done|].
  by destruct body.
Qed.

(** What [rstrip] leaves does not end in whitespace. *)
Lemma rstrip_last s c : last_char (rstrip s) = Some c → is_space c = false.
Proof.
  induction s as [|a s IH]; [done|].
  cbn [rstrip]. destruct (rstrip s) as [|b r] eqn:E.
  - destruct (is_space a) eqn:Ea; [done|].
    cbn [last_char]. by intros [= <-].
  - rewrite last_char_cons by done. apply IH.
Qed.

Lemma remove_char_last old s c :
  last_char s = Some c → Ascii.eqb c old = false →
  last_char (remove_char old s) = Some c.
Proof.
  intros Hlast Hc. induction s as [|a s IH]; [done|].
  destruct s as [|b s].
  - cbn [last_char] in Hlast. injection Hlast as ->.
    cbn [remove_char]. by rewrite Hc.
  - rewrite last_char_cons in Hlast by done. specialize (IH Hlast).
    change (remove_char old (String a (String b s)))
      with (if Ascii.eqb a old then remove_char old (String b s)
            else String a (remove_char old (String b s))).
    destruct (Ascii.eqb a old); [done|].
    rewrite last_char_cons; [done|].
    intros Hempty. by rewrite Hempty in IH.
Qed.

Lemma remove_char_empty old : remove_char old EmptyString = EmptyString.
Proof. reflexivity. Qed.

(** The normalised phone never ends in a newline, so that the [$] of the
    pattern only ever holds at its very end. *)
Lemma normalised_no_final_newline v body :
  ¬ ends_at_newline (remove_char " " (strip v)) body.
Proof.
  unfold ends_at_newline. intros Heq.
  assert (last_char (remove_char " " (strip v)) = Some newline) as Hlast
    by (rewrite Heq; apply last_char_append).
  destruct (strip v) as [|a s] eqn:E; [done|].
  destruct (last_char_some (String a s)) as [c Hc]; [done|].
  assert (is_space c = false) as Hsp
    by (apply (rstrip_last (lstrip v)); unfold strip in E; by rewrite E).
  assert (Ascii.eqb c " " = false) as Hne.
  { destruct (Ascii.eqb_spec c " ") as [->|]; [|done].
    vm_compute in Hsp. discriminate. }
  rewrite (remove_char_last _ _ _ Hc Hne) in Hlast.
  injection Hlast as ->. vm_compute in Hsp. discriminate.
Qed.

Lemma validate_phone_shape v :
  validate_phone v
  = if phone_shape (remove_char " " (strip v))
    then Ok (remove_char " " (strip v)) else Raise InvalidPhone.
Proof.
  unfold validate_phone.
  destruct (phone_shape (remove_char " " (strip v))) eqn:Hshape.
  - assert (re_match PHONE_REGEX (remove_char " " (strip v)) = true) as ->;
      [|done].
    apply phone_regex_matches. eexists. split; [by left | done].
  - destruct (re_match PHONE_REGEX (remove_char " " (strip v))) eqn:Hm;
      [|done].
    apply phone_regex_matches in Hm as (body & [Heq | Heq] & Hbody).
    + rewrite Heq in Hshape. congruence.
    + by apply normalised_no_final_newline in Heq.
Qed.

Lemma remove_whitespace_lstrip s :
  remove_whitespace (lstrip s) = remove_whitespace s.
Proof.
  induction s as [|c s IH]; [done|].
  cbn [lstrip remove_whitespace].
  destruct (is_space c) eqn:Ec; [done|].
  cbn [remove_whitespace]. by rewrite Ec.
Qed.

Lemma remove_whitespace_rstrip s :
  remove_whitespace (rstrip s) = remove_whitespace s.
Proof.
  induction s as [|c s IH]; [done|].
  cbn [rstrip]. destruct (rstrip s) as [|b r] eqn:E.
  - cbn [remove_whitespace] in *. rewrite <- IH.
    by destruct (is_space c) eqn:Ec; cbn [remove_whitespace]; rewrite ?Ec.
  - cbn [remove_whitespace] in *. by rewrite IH.
Qed.

Lemma remove_whitespace_strip s :
  remove_whitespace (strip s) = remove_whitespace s.
Proof.
  unfold strip. by rewrite remove_whitespace_rstrip, remove_whitespace_lstrip.
Qed.

Lemma remove_space_only s :
  only_space_blanks s = true → remove_char " " s = remove_whitespace s.
Proof.
  induction s as [|c s IH]; [done|].
  cbn [only_space_blanks remove_char remove_whitespace].
  intros [Hc Hs]%andb_true_iff. rewrite (IH Hs).
  destruct (Ascii.eqb_spec c " ") as [->|Hne]; [done|].
  rewrite orb_false_r in Hc. apply negb_true_iff in Hc. by rewrite Hc.
Qed.

(** C6, as the code has it.  The phone is stripped of the whitespace at
    its two ends and of every space character; other whitespace inside it,
    such as a tabulation, stays.  The result passes exactly when it is an
    optional leading [+] followed by 8 to 15 digits and nothing else, and
    is then the value retained.  Where the blanks inside the phone are
    spaces only, the result is the phone without any whitespace.
    ["+40712345678"] passes; ["123"] and ["0712-345-678"] raise
    [InvalidPhone]. *)
Theorem phone_normalised_then_matched :
  (∀ v, validate_phone v
        = if phone_shape (remove_char " " (strip v))
          then Ok (remove_char " " (strip v)) else Raise InvalidPhone)
  ∧ (∀ v, only_space_blanks (strip v) = true →
          validate_phone v
          = if phone_shape (remove_whitespace v)
            then Ok (remove_whitespace v) else Raise InvalidPhone)
  ∧ validate_phone "+40712345678" = Ok "+40712345678"%string
  ∧ validate_phone "123" = Raise InvalidPhone
  ∧ validate_phone "0712-345-678" = Raise InvalidPhone.
Proof.
  split; [apply validate_phone_shape | split]; [|by vm_compute].
  intros v Hblank. rewrite validate_phone_shape.
  by rewrite (remove_space_only _ Hblank), remove_whitespace_strip.
Qed.

Lemma phone_normalised_then_matched_witness :
  validate_phone "  0712 345 678 " = Ok "0712345678"%string.
Proof.
  exact (proj1 (proj2 phone_normalised_then_matched) "  0712 345 678 "%string
           eq_refl).
Defined.

(** With every whitespace character dropped the phone would have the
    required shape, yet the tabulation stays and the phone is refused. *)
Lemma phone_with_tab_refused :
  phone_shape (remove_whitespace phone_with_tab) = true
  ∧ validate_phone phone_with_tab = Raise InvalidPhone.
Proof. split; reflexivity. Qed.

(** *** The order of the checks *)

Lemma errors_of_collect {E A B}
    (f : result (list E) (A → B)) (x : result (list E) A) :
  errors_of (collect f x) = errors_of f ++ errors_of x.
Proof. destruct f, x; simpl; by rewrite ?app_nil_r. Qed.

Lemma errors_of_field {A} name (r : result reason A) :
  errors_of (field name r) = failure_of name r.
Proof. by destruct r. Qed.

Lemma collect_raises_some {E A B}
    (f : result (list E) (A → B)) (x : result (list E) A) :
  f ≠ Raise [] → x ≠ Raise [] → collect f x ≠ Raise [].
Proof.
  destruct f as [g|ef], x as [a|ex]; simpl; intros Hf Hx Heq.
  - discriminate.
  - injection Heq as ->. by apply Hx.
  - injection Heq as ->. by apply Hf.
  - injection Heq as Hnil. apply app_eq_nil in Hnil as [-> _]. by apply Hf.
Qed.

Lemma field_raises_some {A} name (r : result reason A) :
  field name r ≠ Raise [].
Proof. by destruct r. Qed.

Section ValidationOrder.

Context (strptime : string → string → option datetime).
Context (validate_email_str : string → option string).

Lemma model_validate_errors body :
  errors_of (model_validate strptime validate_email_str body) = failing_fields strptime validate_email_str body.
Proof.
  unfold model_validate, failing_fields.
  rewrite !errors_of_collect, !errors_of_field.
  cbn [errors_of app]. by rewrite <- !app_assoc.
Qed.

Lemma model_validate_raises_some body : model_validate strptime validate_email_str body ≠ Raise [].
Proof.
  unfold model_validate.
  repeat (apply collect_raises_some; [|apply field_raises_some]).
  done.
Qed.

Lemma model_validate_raise_iff body errs :
  model_validate strptime validate_email_str body = Raise errs
  ↔ errs = failing_fields strptime validate_email_str body ∧ errs ≠ [].
Proof.
  pose proof (model_validate_errors body) as Herr.
  pose proof (model_validate_raises_some body) as Hsome.
  destruct (model_validate strptime validate_email_str body) as [p|e]; simpl in Herr.
  - split; [done|]. intros [-> Hne]. by rewrite <- Herr in Hne.
  - split.
    + intros [= <-]. split; [done|]. by intros ->.
    + intros [-> _]. by rewrite Herr.
Qed.

Lemma model_validate_ok_iff body :
  (∃ payload, model_validate strptime validate_email_str body = Ok payload) ↔ failing_fields strptime validate_email_str body = [].
Proof.
  pose proof (model_validate_errors body) as Herr.
  pose proof (model_validate_raises_some body) as Hsome.
  destruct (model_validate strptime validate_email_str body) as [p|e]; simpl in Herr.
  - split; [done | by exists p].
  - split; [by intros [p [=]]|]. intros Hnil. rewrite Hnil in Herr.
    by subst e.
Qed.

Lemma create_appointment_invalid_body body client n1 n2 delivered log errs :
  model_validate strptime validate_email_str body = Raise errs →
  create_appointment strptime validate_email_str body client n1 n2 delivered
    log
  = (log, Raise (Unprocessable errs)).
Proof. intros H. unfold create_appointment. by rewrite H. Qed.

Lemma create_appointment_limited body payload client n1 n2 delivered log :
  model_validate strptime validate_email_str body = Ok payload →
  rejected (default "unknown"%string client) n1 log →
  create_appointment strptime validate_email_str body client n1 n2 delivered
    log
  = (log_after (default "unknown"%string client) n1 log,
     Raise TooManyRequests).
Proof.
  intros H Hrej. unfold create_appointment, rejected, log_after in *.
  rewrite H. destruct (check_rate_limit _ n1 log) as [log' r].
  simpl in Hrej. by subst r.
Qed.

Lemma create_appointment_extra body payload client n1 n2 delivered log e :
  model_validate strptime validate_email_str body = Ok payload →
  passed (default "unknown"%string client) n1 log →
  extra_validations strptime payload n2 = Raise e →
  create_appointment strptime validate_email_str body client n1 n2 delivered
    log
  = (log_after (default "unknown"%string client) n1 log,
     Raise (BadRequest e)).
Proof.
  intros H Hpass Hextra. unfold create_appointment, passed, log_after in *.
  rewrite H. destruct (check_rate_limit _ n1 log) as [log' r].
  simpl in Hpass. subst r. simpl. by rewrite Hextra.
Qed.

(** C4, as the code has it.  The validation of the body checks every
    field and raises the failures of all of them together, missing and
    invalid fields alike, in the order in which the model declares the
    fields; the request is then answered 422 with that list and the limiter
    is not consulted.  Only a body without any failing field reaches the
    limiter and then the two cross-field checks, which stop at the first
    failure: a combined instant that is not in the future is reported
    alone, whatever the captcha, and the captcha is reported only when the
    instant is in the future. *)
Theorem field_failures_collected_then_first_extra_failure :
  (∀ body errs,
     model_validate strptime validate_email_str body = Raise errs
     ↔ errs = failing_fields strptime validate_email_str body ∧ errs ≠ [])
  ∧ (∀ body,
       (∃ payload, model_validate strptime validate_email_str body = Ok payload)
       ↔ failing_fields strptime validate_email_str body = [])
  ∧ (∀ body client n1 n2 delivered log errs,
       model_validate strptime validate_email_str body = Raise errs →
       create_appointment strptime validate_email_str body client n1 n2
         delivered log
       = (log, Raise (Unprocessable errs)))
  ∧ (∀ body payload client n1 n2 delivered log e,
       model_validate strptime validate_email_str body = Ok payload →
       passed (default "unknown"%string client) n1 log →
       validate_future strptime payload n2 = Raise e →
       create_appointment strptime validate_email_str body client n1 n2
         delivered log
       = (log_after (default "unknown"%string client) n1 log,
          Raise (BadRequest e)))
  ∧ (∀ body payload client n1 n2 delivered log e,
       model_validate strptime validate_email_str body = Ok payload →
       passed (default "unknown"%string client) n1 log →
       validate_future strptime payload n2 = Ok () →
       validate_captcha payload = Raise e →
       create_appointment strptime validate_email_str body client n1 n2
         delivered log
       = (log_after (default "unknown"%string client) n1 log,
          Raise (BadRequest e))).
Proof.
  split; [apply model_validate_raise_iff|].
  split; [apply model_validate_ok_iff|].
  split; [apply create_appointment_invalid_body|].
  split.
  - intros body payload client n1 n2 delivered log e Hm Hpass Hfut.
    apply (create_appointment_extra _ payload); [done | done |].
    unfold extra_validations. by rewrite Hfut.
  - intros body payload client n1 n2 delivered log e Hm Hpass Hfut Hcap.
    apply (create_appointment_extra _ payload); [done | done |].
    unfold extra_validations. by rewrite Hfut.
Qed.

End ValidationOrder.

(** A body whose instant is past and whose captcha is wrong: the answer
    names the instant alone. *)
Lemma field_failures_collected_then_first_extra_failure_witness :
  create_appointment strptime_const Some body_bad_captcha None 0 2000 true ∅
  = (log_after "unknown" 0 ∅, Raise (BadRequest PastDateTime)).
Proof.
  refine (proj1 (proj2 (proj2 (proj2
            (field_failures_collected_then_first_extra_failure
               strptime_const Some))))
            body_bad_captcha _ None 0 2000 true ∅ PastDateTime _ _ _).
  - vm_compute. reflexivity.
  - reflexivity.
  - reflexivity.
Defined.

(** Two failing fields are both reported, and a missing field does not
    come before an invalid field declared earlier: whatever the date parser
    and the email check, the error list of a body with a one-letter name and
    a three-digit phone starts with both failures, and that of a body with a
    one-letter name and no phone starts with the name and then the missing
    phone. *)
Lemma two_invalid_fields_both_reported :
  (∀ strptime validate_email_str, ∃ rest,
     model_validate strptime validate_email_str body_two_invalid
     = Raise (("full_name"%string, InvalidName)
              :: ("phone"%string, InvalidPhone) :: rest))
  ∧ (∀ strptime validate_email_str, ∃ rest,
       model_validate strptime validate_email_str body_short_name_no_phone
       = Raise (("full_name"%string, InvalidName)
                :: ("phone"%string, MissingField) :: rest)).
Proof.
  split; intros strptime validate_email_str; eexists;
    apply model_validate_raise_iff; (split; [|done]);
    unfold failing_fields; cbn [raw_full_name raw_phone body_two_invalid
      body_short_name_no_phone required failure_of app];
    reflexivity.
Qed.

(** ** Further properties of the limiter *)

Lemma spaced_cons_intro a l :
  (∀ n, n ∈ l → RATE_LIMIT_WINDOW_SHORT < n - a) → spaced l → spaced (a :: l).
Proof.
  intros Hgap Hsp. destruct l as [|b l]; [done|].
  split; [apply Hgap; left | done].
Qed.

Lemma spaced_filter (P : datetime → Prop) `{!∀ t, Decision (P t)} l :
  spaced l → spaced (filter P l).
Proof.
  induction l as [|a l IH]; intros Hsp; [done|].
  pose proof (spaced_later _ _ Hsp) as Hlater.
  apply spaced_tail in Hsp. specialize (IH Hsp).
  rewrite filter_cons. destruct (decide (P a)); [|done].
  apply spaced_cons_intro; [|done].
  intros n Hn. apply Hlater.
  by apply (list_elem_of_filter P) in Hn as [_ ?].
Qed.

Lemma spaced_snoc l now :
  spaced l → (∀ t, t ∈ l → RATE_LIMIT_WINDOW_SHORT < now - t) →
  spaced (l ++ [now]).
Proof.
  induction l as [|a l IH]; intros Hsp Hgap; [done|].
  pose proof (spaced_later _ _ Hsp) as Hlater.
  apply spaced_tail in Hsp.
  change ((a :: l) ++ [now]) with (a :: (l ++ [now])).
  apply spaced_cons_intro.
  - intros n Hn. apply elem_of_app in Hn as [Hn | Hn].
    + by apply Hlater.
    + apply list_elem_of_singleton in Hn as ->. apply Hgap. left.
  - apply IH; [done|]. intros t Ht. apply Hgap. by right.
Qed.

Lemma spaced_NoDup l : spaced l → NoDup l.
Proof.
  induction l as [|a l IH]; intros Hsp; [by apply NoDup_nil|].
  apply NoDup_cons. split.
  - intros Hin. pose proof (spaced_later _ _ Hsp _ Hin). win_lia.
  - apply IH. by apply (spaced_tail a).
Qed.

(** A call that passes found every retained timestamp more than the short
    window back. *)
Lemma passed_short_gap ip now log t :
  passed ip now log → t ∈ prune now (history_of log ip) →
  RATE_LIMIT_WINDOW_SHORT < now - t.
Proof.
  intros Hpass Hin. apply passed_iff in Hpass.
  destruct (decide (now - t ≤ RATE_LIMIT_WINDOW_SHORT)) as [Hle|]; [|lia].
  exfalso. apply Hpass. left. by apply (short_count_pos _ _ t).
Qed.

Lemma passed_long_count ip now log :
  passed ip now log → (length (prune now (history_of log ip)) ≤ 4)%nat.
Proof.
  intros Hpass. apply passed_iff in Hpass. unfold over_limit in Hpass.
  unfold RATE_LIMIT_MAX_LONG in Hpass. lia.
Qed.

Lemma reachable_spaced log :
  reachable log → ∀ ip, spaced (history_of log ip).
Proof.
  induction 1 as [|ip now log Hreach IH]; intros ip'.
  - by rewrite history_of_empty.
  - destruct (decide (ip = ip')) as [<-|Hne].
    + destruct (rejected_or_passed ip now log) as [Hrej | Hpass].
      * rewrite (history_after_rejected _ _ _ Hrej).
        by apply spaced_filter.
      * rewrite (history_after_passed _ _ _ Hpass).
        apply spaced_snoc; [by apply spaced_filter|].
        intros t Ht. by apply (passed_short_gap ip _ log).
    + rewrite history_after_other by done. apply IH.
Qed.

Lemma spaced_pairwise l :
  spaced l → ∀ i j a b,
    (i < j)%nat → l !! i = Some a → l !! j = Some b →
    RATE_LIMIT_WINDOW_SHORT < b - a.
Proof.
  induction l as [|x l IH]; intros Hsp i j a b Hij Hi Hj; [done|].
  destruct j as [|j]; [lia|]. simpl in Hj.
  destruct i as [|i].
  - simpl in Hi. injection Hi as ->.
    apply (spaced_later _ _ Hsp). by apply list_elem_of_lookup_2 in Hj.
  - simpl in Hi. apply (IH (spaced_tail _ _ Hsp) i j); [lia | done | done].
Qed.

(** X1. In every table that calls can produce, the timestamps stored for a
    client are strictly increasing and lie more than 15 seconds apart. *)
Theorem stored_history_spaced log ip i j a b :
  reachable log →
  (i < j)%nat →
  history_of log ip !! i = Some a →
  history_of log ip !! j = Some b →
  seconds 15 < b - a.
Proof.
  intros Hreach. apply spaced_pairwise. by apply reachable_spaced.
Qed.

Lemma stored_history_spaced_witness :
  seconds 15 < seconds 40 - seconds 10.
Proof.
  apply (stored_history_spaced
           (log_after "10.0.0.1" (seconds 40)
              (log_after "10.0.0.1" (seconds 10) ∅))
           "10.0.0.1"%string 0%nat 1%nat (seconds 10) (seconds 40)).
  - apply reachable_step, reachable_step, reachable_empty.
  - lia.
  - reflexivity.
  - reflexivity.
Defined.

(** X2. A call for one client leaves what is stored for every other client
    as it was, and no client is ever removed from the table: after a call
    the table holds the clients it held and the client of the call. *)
Theorem other_clients_untouched :
  (∀ ip ip' now (log : request_log),
     ip ≠ ip' → log_after ip now log !! ip' = log !! ip')
  ∧ (∀ ip now (log : request_log),
       dom (log_after ip now log) = {[ ip ]} ∪ dom log).
Proof.
  split.
  - intros ip ip' now log Hne. unfold log_after.
    destruct (decide (over_limit now (prune now (history_of log ip)))) as [H|H].
    + rewrite (check_reject _ _ _ H). simpl. by rewrite lookup_insert_ne.
    + rewrite (check_pass _ _ _ H). simpl. by rewrite !lookup_insert_ne.
  - intros ip now log. unfold log_after.
    destruct (decide (over_limit now (prune now (history_of log ip)))) as [H|H].
    + rewrite (check_reject _ _ _ H). simpl. by rewrite dom_insert_L.
    + rewrite (check_pass _ _ _ H). simpl. rewrite !dom_insert_L.
      by rewrite (assoc_L (∪)), (idemp_L (∪)).
Qed.

Lemma other_clients_untouched_witness :
  log_after "10.0.0.1" 50 {[ "10.0.0.2"%string := [7] ]} !! "10.0.0.2"%string
  = Some [7].
Proof.
  rewrite (proj1 other_clients_untouched "10.0.0.1"%string "10.0.0.2"%string
             50 {[ "10.0.0.2"%string := [7] ]}).
  - reflexivity.
  - discriminate.
Defined.

Lemma monotone_later now rest :
  monotone (now :: rest) → ∀ n, n ∈ rest → now ≤ n.
Proof.
  revert now. induction rest as [|t rest IH]; intros now Hm n Hin.
  - by apply elem_of_nil in Hin.
  - destruct Hm as [Hle Hm].
    apply elem_of_cons in Hin as [-> | Hin]; [done|].
    specialize (IH _ Hm _ Hin). lia.
Qed.

Lemma monotone_tail now rest : monotone (now :: rest) → monotone rest.
Proof. destruct rest; [done|]. by intros [_ ?]. Qed.

Lemma admitted_times_passed ip now rest log :
  passed ip now log →
  admitted_times ip (now :: rest) log
  = now :: admitted_times ip rest (log_after ip now log).
Proof.
  unfold passed, log_after. simpl.
  destruct (check_rate_limit ip now log) as [log1 r]. simpl.
  by intros ->.
Qed.

Lemma admitted_times_rejected ip now rest log :
  rejected ip now log →
  admitted_times ip (now :: rest) log
  = admitted_times ip rest (log_after ip now log).
Proof.
  unfold rejected, log_after. simpl.
  destruct (check_rate_limit ip now log) as [log1 r]. simpl.
  by intros ->.
Qed.

Lemma in_window_snoc w past now :
  in_window w (past ++ [now])
  = (in_window w past
     + if decide (w - RATE_LIMIT_WINDOW_LONG ≤ now ∧ now ≤ w)%Z
       then 1 else 0)%nat.
Proof.
  unfold in_window. rewrite filter_app, length_app, filter_cons, filter_nil.
  by destruct (decide _).
Qed.

(** The invariant of a run under a clock that never goes back: [past] are
    the instants admitted so far, none later than the calls to come; each
    of them is still stored unless it is out of the long window of every
    call to come. *)
Lemma run_enforces_limits ip nows : ∀ log past,
  monotone nows →
  (∀ t n, t ∈ past → n ∈ nows → t ≤ n) →
  (∀ t, t ∈ past →
        t ∈ history_of log ip
        ∨ ∀ n, n ∈ nows → RATE_LIMIT_WINDOW_LONG < n - t) →
  spaced past →
  (∀ w, (in_window w past ≤ 5)%nat) →
  spaced (past ++ admitted_times ip nows log)
  ∧ ∀ w, (in_window w (past ++ admitted_times ip nows log) ≤ 5)%nat.
Proof.
  induction nows as [|now rest IH];
    intros log past Hmono Hbefore Hstored Hsp Hwin.
  - simpl. by rewrite app_nil_r.
  - pose proof (monotone_later _ _ Hmono) as Hlater.
    apply monotone_tail in Hmono.
    assert (∀ t, t ∈ past →
              t ∈ prune now (history_of log ip)
              ∨ RATE_LIMIT_WINDOW_LONG < now - t) as Hnow.
    { intros t Ht. destruct (Hstored t Ht) as [Hin | Hout].
      - destruct (decide (now - t ≤ RATE_LIMIT_WINDOW_LONG)); [|right; lia].
        left. by apply elem_of_prune.
      - right. apply Hout. left. }
    assert (∀ t, t ∈ past →
              t ∈ prune now (history_of log ip)
              ∨ ∀ n, n ∈ rest → RATE_LIMIT_WINDOW_LONG < n - t) as Hrest.
    { intros t Ht. destruct (Hnow t Ht) as [Hin | Hout]; [by left|].
      right. intros n Hn. specialize (Hlater n Hn). lia. }
    destruct (rejected_or_passed ip now log) as [Hrej | Hpass].
    + rewrite (admitted_times_rejected _ _ _ _ Hrej).
      apply IH; try done.
      * intros t n Ht Hn. apply Hbefore; [done | by right].
      * rewrite (history_after_rejected _ _ _ Hrej). done.
    + rewrite (admitted_times_passed _ _ _ _ Hpass).
      change (past ++ now :: ?l) with (past ++ [now] ++ l).
      rewrite app_assoc.
      assert (∀ t, t ∈ past → RATE_LIMIT_WINDOW_SHORT < now - t) as Hgap.
      { intros t Ht. destruct (Hnow t Ht) as [Hin | Hout].
        - by apply (passed_short_gap ip _ log).
        - win_lia. }
      apply IH; try done.
      * intros t n Ht Hn. apply elem_of_app in Ht as [Ht | Ht].
        -- apply Hbefore; [done | by right].
        -- apply list_elem_of_singleton in Ht as ->. by apply Hlater.
      * intros t Ht. rewrite (history_after_passed _ _ _ Hpass).
        apply elem_of_app in Ht as [Ht | Ht].
        -- destruct (Hrest t Ht) as [Hin | Hout]; [|by right].
           left. apply elem_of_app. by left.
        -- left. apply elem_of_app. by right.
      * by apply spaced_snoc.
      * intros w. rewrite in_window_snoc.
        destruct (decide (w - RATE_LIMIT_WINDOW_LONG ≤ now ∧ now ≤ w))
          as [[Hlo Hhi]|]; [|specialize (Hwin w); lia].
        assert (in_window w past ≤ length (prune now (history_of log ip)))%nat
          as Hle.
        { unfold in_window. apply submseteq_length, NoDup_submseteq.
          - apply NoDup_filter. by apply spaced_NoDup.
          - intros t Ht.
            apply (list_elem_of_filter
                     (λ t, w - RATE_LIMIT_WINDOW_LONG ≤ t ∧ t ≤ w)) in Ht
              as [[Hwt _] Ht].
            destruct (Hnow t Ht) as [Hin | Hout]; [done | lia]. }
        pose proof (passed_long_count _ _ _ Hpass). lia.
Qed.

(** X3. Under a clock that never goes back the limiter enforces both
    limits, whatever the table held before: the requests of a client that
    it lets in lie more than 15 seconds apart, and no rolling 5-minute
    window holds more than five of them. *)
Theorem limiter_enforces_limits ip nows log :
  monotone nows →
  spaced (admitted_times ip nows log)
  ∧ ∀ w, (in_window w (admitted_times ip nows log) ≤ 5)%nat.
Proof.
  intros Hmono.
  apply (run_enforces_limits ip nows log []); try done.
  - intros t n Ht. by apply elem_of_nil in Ht.
  - intros t Ht. by apply elem_of_nil in Ht.
  - intros w. unfold in_window. rewrite filter_nil. simpl. lia.
Qed.

(** A client hammering every 5 seconds for a minute is let in at seconds
    0, 20, 40 and 60 only. *)
Lemma limiter_enforces_limits_witness :
  spaced (admitted_times "10.0.0.1"
            [0; seconds 5; seconds 10; seconds 15; seconds 20; seconds 25;
             seconds 30; seconds 35; seconds 40; seconds 45; seconds 50;
             seconds 55; seconds 60] ∅).
Proof.
  refine (proj1 (limiter_enforces_limits "10.0.0.1"%string
            [0; seconds 5; seconds 10; seconds 15; seconds 20; seconds 25;
             seconds 30; seconds 35; seconds 40; seconds 45; seconds 50;
             seconds 55; seconds 60] ∅ _)).
  vm_compute. repeat split; discriminate.
Defined.

(** ** Further properties of the validation *)

Lemma lstrip_no_blank s : no_blank s = true → lstrip s = s.
Proof.
  destruct s as [|c s]; [done|]. cbn [no_blank lstrip].
  intros [Hc _]%andb_true_iff. apply negb_true_iff in Hc. by rewrite Hc.
Qed.

Lemma rstrip_no_blank s : no_blank s = true → rstrip s = s.
Proof.
  induction s as [|c s IH]; [done|]. cbn [no_blank rstrip].
  intros [Hc Hs]%andb_true_iff. apply negb_true_iff in Hc.
  rewrite (IH Hs). destruct s; [by rewrite Hc | done].
Qed.

Lemma strip_no_blank s : no_blank s = true → strip s = s.
Proof.
  intros H. unfold strip. by rewrite (lstrip_no_blank _ H), rstrip_no_blank.
Qed.

Lemma remove_space_no_blank s : no_blank s = true → remove_char " " s = s.
Proof.
  induction s as [|c s IH]; [done|]. cbn [no_blank remove_char].
  intros [Hc Hs]%andb_true_iff. apply negb_true_iff in Hc.
  rewrite (IH Hs).
  destruct (Ascii.eqb_spec c " ") as [->|]; [|done].
  vm_compute in Hc. discriminate.
Qed.

Lemma digit_not_space c : is_digit c = true → is_space c = false.
Proof.
  unfold is_digit, is_space. cbv zeta.
  change (code "0") with 48%N. change (code "9") with 57%N.
  intros [H1 H2]%andb_true_iff. apply N.leb_le in H1, H2.
  repeat (apply orb_false_iff; split);
    first [ apply andb_false_iff; (left; apply N.leb_gt; lia)
                                    || (right; apply N.leb_gt; lia)
          | apply N.eqb_neq; lia ].
Qed.

Lemma all_digits_no_blank s : all_digits s = true → no_blank s = true.
Proof.
  induction s as [|c s IH]; [done|]. cbn [all_digits no_blank].
  intros [Hc Hs]%andb_true_iff.
  by rewrite (digit_not_space _ Hc), (IH Hs).
Qed.

Lemma phone_shape_no_blank s : phone_shape s = true → no_blank s = true.
Proof.
  unfold phone_shape. destruct s as [|c s]; [done|].
  destruct (Ascii.eqb_spec c "+") as [->|Hne].
  - intros [[Hd _]%andb_true_iff _]%andb_true_iff.
    cbn [no_blank]. by rewrite (all_digits_no_blank _ Hd).
  - intros [[Hd _]%andb_true_iff _]%andb_true_iff.
    by apply all_digits_no_blank.
Qed.

Lemma phone_shape_length s :
  phone_shape s = true → (8 ≤ String.length s ≤ 16)%nat.
Proof.
  unfold phone_shape. destruct s as [|c s]; [done|].
  destruct (Ascii.eqb c "+");
    intros [[_ Hlo%Nat.leb_le]%andb_true_iff Hhi%Nat.leb_le]%andb_true_iff;
    cbn [String.length] in *; lia.
Qed.

(** X4. A phone that passes is retained in normal form: the value kept has
    the shape of the pattern, holds no whitespace, has 8 to 16 characters,
    and validating it again gives it back unchanged. *)
Theorem validated_phone_is_normal v p :
  validate_phone v = Ok p →
  p = remove_char " " (strip v)
  ∧ phone_shape p = true
  ∧ no_blank p = true
  ∧ (8 ≤ String.length p ≤ 16)%nat
  ∧ validate_phone p = Ok p.
Proof.
  rewrite validate_phone_shape.
  destruct (phone_shape (remove_char " " (strip v))) eqn:Hshape; [|done].
  intros [= <-].
  pose proof (phone_shape_no_blank _ Hshape) as Hnb.
  repeat split; try done.
  - by apply phone_shape_length.
  - by apply phone_shape_length.
  - rewrite validate_phone_shape.
    by rewrite (strip_no_blank _ Hnb), (remove_space_no_blank _ Hnb), Hshape.
Qed.

Lemma validated_phone_is_normal_witness :
  validate_phone "+40712345678" = Ok "+40712345678"%string.
Proof.
  exact (proj2 (proj2 (proj2 (proj2
           (validated_phone_is_normal " +40 712 345 678 " "+40712345678"
              eq_refl))))).
Defined.

(** X5. What the pattern of the phone matches by itself: exactly the texts
    made of an optional [+] and 8 to 15 digits, and those texts followed by
    one newline, which the [$] of the pattern lets through. *)
Theorem phone_regex_language s :
  re_match PHONE_REGEX s = true
  ↔ phone_shape s = true
    ∨ ∃ body, s = String.append body (String newline EmptyString)
              ∧ phone_shape body = true.
Proof.
  rewrite phone_regex_matches. unfold ends_at, ends_at_newline. split.
  - intros (body & [-> | ->] & Hshape); [by left | right; by exists body].
  - intros [Hshape | (body & -> & Hshape)].
    + exists s. split; [by left | done].
    + exists body. split; [by right | done].
Qed.

(** *** The service *)

Lemma lower_char_space c : is_space (lower_char c) = is_space c.
Proof. destruct c as [[] [] [] [] [] [] [] []]; reflexivity. Qed.

Lemma lower_char_idem c : lower_char (lower_char c) = lower_char c.
Proof. destruct c as [[] [] [] [] [] [] [] []]; reflexivity. Qed.

Lemma lower_idem s : lower (lower s) = lower s.
Proof.
  induction s as [|c s IH]; [done|]. cbn [lower].
  by rewrite lower_char_idem, IH.
Qed.

Lemma lower_lstrip s : lower (lstrip s) = lstrip (lower s).
Proof.
  induction s as [|c s IH]; [done|]. cbn [lower lstrip].
  rewrite lower_char_space. by destruct (is_space c).
Qed.

Lemma lower_rstrip s : lower (rstrip s) = rstrip (lower s).
Proof.
  induction s as [|c s IH]; [done|]. cbn [lower rstrip].
  rewrite <- IH, lower_char_space.
  destruct (rstrip s); [by destruct (is_space c) | done].
Qed.

Lemma lower_strip s : lower (strip s) = strip (lower s).
Proof. unfold strip. by rewrite lower_rstrip, lower_lstrip. Qed.

Lemma lstrip_first s c : first_char (lstrip s) = Some c → is_space c = false.
Proof.
  induction s as [|a s IH]; [done|]. cbn [lstrip].
  destruct (is_space a) eqn:Ea; [done|]. by intros [= <-].
Qed.

Lemma rstrip_first s c :
  first_char (rstrip s) = Some c → first_char s = Some c.
Proof.
  destruct s as [|a s]; [done|]. cbn [rstrip].
  destruct (rstrip s); [by destruct (is_space a) | done].
Qed.

Lemma lstrip_fixed s :
  (∀ c, first_char s = Some c → is_space c = false) → lstrip s = s.
Proof.
  destruct s as [|a s]; [done|]. intros H. cbn [lstrip].
  by rewrite (H a eq_refl).
Qed.

Lemma rstrip_fixed s :
  (∀ c, last_char s = Some c → is_space c = false) → rstrip s = s.
Proof.
  induction s as [|a s IH]; [done|]. intros H. cbn [rstrip].
  destruct s as [|b s].
  - cbn [rstrip]. by rewrite (H a eq_refl).
  - rewrite IH; [done|]. intros c Hc. apply H.
    by rewrite last_char_cons.
Qed.

Lemma strip_idem s : strip (strip s) = strip s.
Proof.
  unfold strip.
  rewrite (lstrip_fixed (rstrip (lstrip s))).
  - apply rstrip_fixed. intros c. apply rstrip_last.
  - intros c Hc. apply rstrip_first in Hc. by apply (lstrip_first s).
Qed.

Lemma allowed_service_normal s :
  s ∈ ALLOWED_SERVICES → lower (strip s) = s.
Proof.
  unfold ALLOWED_SERVICES. intros H.
  repeat (apply elem_of_cons in H as [-> | H]; [reflexivity|]).
  by apply elem_of_nil in H.
Qed.

Lemma validate_service_ok v s :
  validate_service v = Ok s ↔ s = lower (strip v) ∧ s ∈ ALLOWED_SERVICES.
Proof.
  unfold validate_service. case_bool_decide as Hin.
  - split; [done|]. by intros [-> ?].
  - split.
    + by intros [= <-].
    + by intros [-> _].
Qed.

(** X6. A service that passes is retained in normal form, trimmed and in
    lower case, as one of the three services on offer; validating the
    retained value again gives it back; and the check sees neither the case
    of the text nor the whitespace around it. *)
Theorem validated_service_is_normal :
  (∀ v s, validate_service v = Ok s →
          s = lower (strip v)
          ∧ (s = "tuns" ∨ s = "aranjat barba" ∨ s = "pachet complet")%string
          ∧ validate_service s = Ok s)
  ∧ (∀ v, validate_service v = Raise InvalidService
          ∨ validate_service v = Ok (lower (strip v)))
  ∧ (∀ v, validate_service (lower v) = validate_service v)
  ∧ (∀ v, validate_service (strip v) = validate_service v).
Proof.
  split; [|split; [|split]].
  - intros v s Hok. apply validate_service_ok in Hok as [Heq Hin].
    split; [done|]. split.
    + unfold ALLOWED_SERVICES in Hin.
      apply elem_of_cons in Hin as [-> | Hin]; [by left|].
      apply elem_of_cons in Hin as [-> | Hin]; [right; by left|].
      apply elem_of_cons in Hin as [-> | Hin]; [right; by right|].
      by apply elem_of_nil in Hin.
    + apply validate_service_ok. by rewrite (allowed_service_normal _ Hin).
  - intros v. unfold validate_service. case_bool_decide; [by left | by right].
  - intros v. unfold validate_service.
    by rewrite <- lower_strip, lower_idem.
  - intros v. unfold validate_service. by rewrite strip_idem.
Qed.

Lemma validated_service_is_normal_witness :
  validate_service "tuns" = Ok "tuns"%string.
Proof.
  exact (proj2 (proj2 (proj1 validated_service_is_normal
                         "  Tuns  "%string "tuns"%string eq_refl))).
Defined.

(** *** The validated request *)

Lemma collect_ok_inv {E A B}
    (f : result (list E) (A → B)) (x : result (list E) A) b :
  collect f x = Ok b → ∃ g a, f = Ok g ∧ x = Ok a ∧ b = g a.
Proof.
  destruct f as [g|], x as [a|]; simpl; intros [= <-]. by exists g, a.
Qed.

Lemma field_ok_inv {A} name (r : result reason A) a :
  field name r = Ok a → r = Ok a.
Proof. destruct r; simpl; by intros [= <-]. Qed.

Lemma required_ok_inv {A B} (check : A → result reason B) v b :
  required check v = Ok b → ∃ a, v = Some a ∧ check a = Ok b.
Proof. destruct v as [a|]; simpl; [|done]. intros H. by exists a. Qed.

Lemma optional_accept {A} (v : option A) : optional accept v = Ok v.
Proof. by destruct v. Qed.

Lemma validated_phone_shape v p :
  validate_phone v = Ok p →
  p = remove_char " " (strip v) ∧ phone_shape p = true.
Proof.
  rewrite validate_phone_shape.
  destruct (phone_shape (remove_char " " (strip v))) eqn:Hshape; [|done].
  by intros [= <-].
Qed.

Section ValidatedRequest.

Context (strptime : string → string → option datetime).
Context (validate_email_str : string → option string).

(** X7. A body that passes the validation of the model yields a request
    whose fields are the checked and normalised members of the body: the
    name as received, of at least 2 characters; the phone in normal form
    and of the shape of the pattern; the email as the email check retains
    it; the service in normal form and on offer; the date and the time as
    received and parsed by their formats; the message and the three
    integers as received. *)
Theorem model_validate_ok_fields body p :
  model_validate strptime validate_email_str body = Ok p →
  (raw_full_name body = Some (full_name p)
   ∧ (2 ≤ String.length (full_name p))%nat)
  ∧ (∃ v, raw_phone body = Some v ∧ phone p = remove_char " " (strip v)
          ∧ phone_shape (phone p) = true)
  ∧ match raw_email body with
    | None => email p = None
    | Some v => ∃ e, validate_email_str v = Some e ∧ email p = Some e
    end
  ∧ (∃ v, raw_service body = Some v ∧ service p = lower (strip v)
          ∧ service p ∈ ALLOWED_SERVICES)
  ∧ (raw_date body = Some (date p)
     ∧ ∃ d, strptime (date p) "%Y-%m-%d" = Some d)
  ∧ (raw_time body = Some (time p)
     ∧ ∃ t, strptime (time p) "%H:%M" = Some t)
  ∧ message p = raw_message body
  ∧ raw_captcha_a body = Some (captcha_a p)
  ∧ raw_captcha_b body = Some (captcha_b p)
  ∧ raw_captcha_result body = Some (captcha_result p).
Proof.
  unfold model_validate. intros H.
  apply collect_ok_inv in H as (g9 & cr & H & Hcr & ->).
  apply collect_ok_inv in H as (g8 & cb & H & Hcb & ->).
  apply collect_ok_inv in H as (g7 & ca & H & Hca & ->).
  apply collect_ok_inv in H as (g6 & msg & H & Hmsg & ->).
  apply collect_ok_inv in H as (g5 & tm & H & Htm & ->).
  apply collect_ok_inv in H as (g4 & dt & H & Hdt & ->).
  apply collect_ok_inv in H as (g3 & sv & H & Hsv & ->).
  apply collect_ok_inv in H as (g2 & em & H & Hem & ->).
  apply collect_ok_inv in H as (g1 & ph & H & Hph & ->).
  apply collect_ok_inv in H as (g0 & nm & H & Hnm & ->).
  injection H as <-. cbn [full_name phone email service date time message
    captcha_a captcha_b captcha_result].
  apply field_ok_inv in Hcr, Hcb, Hca, Hmsg, Htm, Hdt, Hsv, Hem, Hph, Hnm.
  apply required_ok_inv in Hcr as (? & -> & [= ->]).
  apply required_ok_inv in Hcb as (? & -> & [= ->]).
  apply required_ok_inv in Hca as (? & -> & [= ->]).
  rewrite optional_accept in Hmsg. injection Hmsg as ->.
  apply required_ok_inv in Htm as (vt & -> & Htm).
  apply required_ok_inv in Hdt as (vd & -> & Hdt).
  apply required_ok_inv in Hsv as (vs & -> & Hsv).
  apply required_ok_inv in Hph as (vp & -> & Hph).
  apply required_ok_inv in Hnm as (vn & -> & Hnm).
  unfold validate_time in Htm. unfold validate_date in Hdt.
  destruct (strptime vt "%H:%M") as [t|] eqn:Et; [|done].
  destruct (strptime vd "%Y-%m-%d") as [d|] eqn:Ed; [|done].
  injection Htm as <-. injection Hdt as <-.
  apply validate_service_ok in Hsv as [-> Hin].
  apply validated_phone_shape in Hph as [-> Hshape].
  unfold check_full_name in Hnm. case_bool_decide as Hlen; [|done].
  injection Hnm as <-.
  repeat split; try done.
  - by exists vp.
  - destruct (raw_email body) as [ve|]; simpl in Hem.
    + unfold check_email in Hem.
      destruct (validate_email_str ve) as [e|]; [|done].
      injection Hem as <-. by exists e.
    + by injection Hem as <-.
  - by exists vs.
  - by exists d.
  - by exists t.
Qed.

End ValidatedRequest.

Lemma model_validate_ok_fields_witness :
  raw_full_name sample_body = Some (full_name sample_validated)
  ∧ (2 ≤ String.length (full_name sample_validated))%nat.
Proof.
  exact (proj1 (model_validate_ok_fields strptime_const Some sample_body
                  sample_validated eq_refl)).
Defined.

(** *** The handler *)

Section Handler.

Context (strptime : string → string → option datetime).
Context (validate_email_str : string → option string).

Lemma extra_validations_ok payload now :
  extra_validations strptime payload now = Ok ()
  ↔ (∃ dt, combined_datetime strptime payload = Some dt ∧ now < dt)
    ∧ captcha_a payload + captcha_b payload = captcha_result payload.
Proof.
  unfold extra_validations, validate_future, validate_captcha.
  destruct (combined_datetime strptime payload) as [dt|]; simpl.
  - case_bool_decide as Hpast; simpl.
    + split; [done|]. intros [(dt' & [= <-] & Hlt) _]. lia.
    + case_bool_decide as Hsum.
      * split; [done|]. by intros [_ ?].
      * split; [|done]. intros _. split; [exists dt; split; [done|lia]|].
        lia.
  - split; [done|]. by intros [(dt' & [=] & _) _].
Qed.

(** The table after the handler: untouched when the body is refused, and
    otherwise what the limiter left, whatever happens afterwards. *)
Lemma create_appointment_table body client n1 n2 delivered log :
  (create_appointment strptime validate_email_str body client n1 n2 delivered
     log).1
  = match model_validate strptime validate_email_str body with
    | Raise _ => log
    | Ok _ => log_after (default "unknown"%string client) n1 log
    end.
Proof.
  unfold create_appointment, log_after.
  destruct (model_validate _ _ body) as [p|errs]; [|done].
  destruct (check_rate_limit _ n1 log) as [log' [[]|e]]; [|done].
  destruct (extra_validations strptime p n2); [|done].
  by destruct delivered.
Qed.

(** X8. The handler answers with success exactly when every stage lets the
    request through: the body passes the model, the limiter lets the
    client in, the combined instant parses and lies strictly after the
    clock reading, the captcha adds up, and the mail is delivered.  The
    table is then the one the limiter left, with the request recorded. *)
Theorem create_appointment_success body client n1 n2 delivered log log' resp :
  create_appointment strptime validate_email_str body client n1 n2 delivered
    log = (log', Ok resp)
  ↔ ∃ payload dt,
      model_validate strptime validate_email_str body = Ok payload
      ∧ passed (default "unknown"%string client) n1 log
      ∧ combined_datetime strptime payload = Some dt ∧ n2 < dt
      ∧ captcha_a payload + captcha_b payload = captcha_result payload
      ∧ delivered = true
      ∧ log' = log_after (default "unknown"%string client) n1 log
      ∧ resp = {| success := true;
                  response_message :=
                    "Programarea a fost trimisă cu succes." |}.
Proof.
  unfold create_appointment, passed, log_after.
  destruct (model_validate _ _ body) as [p|errs].
  2: { split; [done|]. by intros (? & ? & [=] & _). }
  destruct (check_rate_limit _ n1 log) as [log1 [[]|e]]; simpl.
  2: { split; [done|]. by intros (? & ? & _ & [=] & _). }
  pose proof (extra_validations_ok p n2) as Hextra.
  destruct (extra_validations strptime p n2) as [[]|e].
  - destruct (proj1 Hextra eq_refl) as [(dt & Hdt & Hlt) Hsum].
    destruct delivered.
    + split.
      * intros [= <- <-]. by exists p, dt.
      * by intros (p' & dt' & [= <-] & _ & _ & _ & _ & _ & -> & ->).
    + split; [done|]. by intros (? & ? & _ & _ & _ & _ & _ & [=] & _).
  - split; [done|].
    intros (p' & dt' & [= <-] & _ & Hdt & Hlt & Hsum & _).
    assert (Raise e = Ok ()) as Habs; [|done].
    apply Hextra. split; [by exists dt' | done].
Qed.

(** X9. A request that the limiter lets in is recorded whatever becomes of
    it afterwards: also when it is then refused for its instant or its
    captcha, or when the mail is not delivered, a further well-formed
    request of the same client no later than 15 seconds after it is
    answered 429. *)
Theorem admitted_request_counts_whatever_follows
    body payload body' payload' client n1 n2 delivered n1' n2' delivered' log :
  model_validate strptime validate_email_str body = Ok payload →
  passed (default "unknown"%string client) n1 log →
  model_validate strptime validate_email_str body' = Ok payload' →
  n1' - n1 ≤ seconds 15 →
  (create_appointment strptime validate_email_str body' client n1' n2'
     delivered'
     (create_appointment strptime validate_email_str body client n1 n2
        delivered log).1).2
  = Raise TooManyRequests.
Proof.
  intros Hbody Hpass Hbody' Hclose.
  rewrite create_appointment_table, Hbody.
  rewrite (create_appointment_limited _ _ body' payload'); [done | done |].
  by apply second_within_short_rejected.
Qed.

End Handler.

(** A request with a wrong captcha, and a correct one 5 seconds later. *)
Lemma admitted_request_counts_whatever_follows_witness :
  (create_appointment strptime_const Some sample_body (Some "10.0.0.1"%string)
     (seconds 5) 0 true
     (create_appointment strptime_const Some body_bad_captcha
        (Some "10.0.0.1"%string) 0 0 true ∅).1).2
  = Raise TooManyRequests.
Proof.
  eapply (admitted_request_counts_whatever_follows strptime_const Some
            body_bad_captcha _ sample_body _).
  - vm_compute. reflexivity.
  - reflexivity.
  - vm_compute. reflexivity.
  - vm_compute. discriminate.
Defined.

(** ** The mail *)


Ltac list_facts :=
  repeat match goal with
    | H : _ ∈ [] |- _ => by apply elem_of_nil in H
    | H : _ ∈ _ :: _ |- _ => apply elem_of_cons in H as [H | H]
    | H : _ ∈ _ ++ _ |- _ => apply elem_of_app in H as [H | H]
    end;
  try discriminate.




Section MailProperties.

Context (py_int : string → option Z).
Context (as_string : string → string → string → string → option string).


(** X11. The configuration that [send_email] reads.  The port is read
    first, and a port that is no integer raises before anything else is
    looked at.  Otherwise the configuration is refused exactly when the host
    is unset or empty, or the port is 0, or the sender is empty ([MAIL_FROM]
    set to the empty text, or unset while the user is unset or empty), or
    [MAIL_TO] is set to the empty text; nothing is then attempted on the
    network.  A connection goes to the host and port of the environment,
    and STARTTLS is attempted only when [SMTP_USE_TLS], [true] when unset,
    reads 1, true or yes in any case. *)
Theorem send_email_configuration env server subject html_body :
  (py_int (getenv_or env "SMTP_PORT" "587") = None →
   send_email py_int as_string env server subject html_body
   = ([], Raise PortNotAnInteger))
  ∧ (∀ port,
       py_int (getenv_or env "SMTP_PORT" "587") = Some port →
       (send_email py_int as_string env server subject html_body).2
       = Raise IncompleteConfiguration
       ↔ truthy (getenv env "SMTP_HOST") = false
         ∨ port = 0
         ∨ getenv env "MAIL_FROM" = Some EmptyString
         ∨ (getenv env "MAIL_FROM" = None
            ∧ truthy (getenv env "SMTP_USER") = false)
         ∨ getenv env "MAIL_TO" = Some EmptyString)
  ∧ ((send_email py_int as_string env server subject html_body).2
     = Raise IncompleteConfiguration →
     (send_email py_int as_string env server subject html_body).1 = [])
  ∧ (∀ h p,
       Connect h p ∈ (send_email py_int as_string env server subject html_body).1 →
       getenv env "SMTP_HOST" = Some h ∧ h ≠ EmptyString
       ∧ py_int (getenv_or env "SMTP_PORT" "587") = Some p ∧ p ≠ 0)
  ∧ (StartTls ∈ (send_email py_int as_string env server subject html_body).1 →
     lower (getenv_or env "SMTP_USE_TLS" "true")
     ∈ ["1"; "true"; "yes"]%string).
Proof.
  unfold send_email, login_and_send.
  destruct (py_int _) as [port|] eqn:Hport.
  2: { repeat split; intros; cbn [fst snd] in *; list_facts; done. }
  assert (negb (truthy (getenv env "SMTP_HOST")) || (port =? 0)
          || negb (truthy (Some (getenv_or env "MAIL_FROM"
                     (if truthy (getenv env "SMTP_USER")
                      then default ""%string (getenv env "SMTP_USER")
                      else ""%string))))
          || negb (truthy (Some (getenv_or env "MAIL_TO"
                                   "stkbarbershop@gmail.com"))) = true
          ↔ truthy (getenv env "SMTP_HOST") = false
            ∨ port = 0
            ∨ getenv env "MAIL_FROM" = Some EmptyString
            ∨ (getenv env "MAIL_FROM" = None
               ∧ truthy (getenv env "SMTP_USER") = false)
            ∨ getenv env "MAIL_TO" = Some EmptyString) as Hconf.
  { unfold getenv_or, getenv.
    rewrite !orb_true_iff, !negb_true_iff, Z.eqb_eq.
    destruct (env !! "MAIL_FROM"%string) as [[|]|],
      (env !! "MAIL_TO"%string) as [[|]|],
      (env !! "SMTP_USER"%string) as [[|]|]; simpl; intuition congruence. }
  destruct (negb _ || _ || _ || _) eqn:Hbad.
  { pose proof (proj1 Hconf eq_refl) as Hwhy.
    split; [done|]. split; [by intros ? [= <-]|].
    repeat split; intros; cbn [fst snd] in *; list_facts. }
  assert (¬ (truthy (getenv env "SMTP_HOST") = false
             ∨ port = 0
             ∨ getenv env "MAIL_FROM" = Some EmptyString
             ∨ (getenv env "MAIL_FROM" = None
                ∧ truthy (getenv env "SMTP_USER") = false)
             ∨ getenv env "MAIL_TO" = Some EmptyString)) as Hgood
    by (intros H; apply Hconf in H; discriminate).
  assert (getenv env "SMTP_HOST"
          = Some (default ""%string (getenv env "SMTP_HOST"))
          ∧ default ""%string (getenv env "SMTP_HOST") ≠ EmptyString
          ∧ port ≠ 0) as (Hhost & Hhne & Hpne).
  { destruct (getenv env "SMTP_HOST") as [[|]|]; simpl in *;
      repeat split; try done; try (contradict Hgood; by left);
      intros ->; contradict Hgood; right; by left. }
  split; [done|].
  destruct (connect_raises server).
  { split; [intros ? [= <-]; split; [done | by intros ?%Hgood]|].
    repeat split; intros; cbn [fst snd] in *; list_facts; simplify_eq; done. }
  destruct (bool_decide _) eqn:Htls; cbn [andb].
  - destruct (starttls_raises server).
    { split; [intros ? [= <-]; split; [done | by intros ?%Hgood]|].
      repeat split; intros; cbn [fst snd] in *; list_facts; simplify_eq;
        try done; by apply bool_decide_eq_true in Htls. }
    destruct (as_string _ _ _ _),
      (truthy (getenv env "SMTP_USER") && truthy (getenv env "SMTP_PASS")),
      (login_raises server), (sendmail_raises server); cbn [fst snd app];
      (split; [intros ? [= <-]; split; [done | by intros ?%Hgood]|]);
      repeat split; intros; cbn [fst snd] in *; list_facts; simplify_eq;
      try done; by apply bool_decide_eq_true in Htls.
  - destruct (as_string _ _ _ _),
      (truthy (getenv env "SMTP_USER") && truthy (getenv env "SMTP_PASS")),
      (login_raises server), (sendmail_raises server); cbn [fst snd app];
      (split; [intros ? [= <-]; split; [done | by intros ?%Hgood]|]);
      repeat split; intros; cbn [fst snd] in *; list_facts; simplify_eq; done.
Qed.

End MailProperties.


Lemma send_email_configuration_witness :
  send_email int_587 sample_as_string {[ "SMTP_PORT"%string := "smtp"%string ]} willing_server
    "Programare" "<p>Ion</p>"
  = ([], Raise PortNotAnInteger).
Proof.
  exact (proj1 (send_email_configuration int_587 sample_as_string
                  {[ "SMTP_PORT"%string := "smtp"%string ]} willing_server
                  "Programare" "<p>Ion</p>") eq_refl).
Defined.

(** ** The diagnostic endpoint *)

(** X12. What the diagnostic discloses.  Its [database_url] and
    [database_name] entries say only whether the two settings of the
    environment are set and not empty: whatever the database module is,
    they never carry the name of the database.  It lists at most the first
    ten collections of the database, and none when there is no database or
    the listing raised; it says connected exactly when the module holds a
    database, and working exactly when the listing returned.  An error text
    that it reports has at most 50 characters. *)
Theorem diagnostic_discloses module env :
  (database_url (test_database module env)
   = Some (if truthy (getenv env "DATABASE_URL") then EnvSet else EnvNotSet)
   ∧ database_name (test_database module env)
     = Some (if truthy (getenv env "DATABASE_NAME") then EnvSet else EnvNotSet))
  ∧ ((length (collections (test_database module env)) ≤ 10)%nat
     ∧ ∀ name names, module = Db name (Ok names) →
         collections (test_database module env) = take 10 names)
  ∧ ((∀ name names, module ≠ Db name (Ok names)) →
     collections (test_database module env) = [])
  ∧ (connected (test_database module env) = true
     ↔ ∃ name listing, module = Db name listing)
  ∧ (database (test_database module env) = ConnectedWorking
     ↔ ∃ name names, module = Db name (Ok names))
  ∧ (∀ e, database (test_database module env) = ConnectedButError e
          ∨ database (test_database module env) = ImportError e →
          (String.length e ≤ 50)%nat).
Proof.
  assert (∀ n s, (String.length (prefix_of_text n s) ≤ n)%nat) as Hcut.
  { induction n as [|n IH]; intros [|c s]; simpl; try lia.
    specialize (IH s). lia. }
  split; [done|].
  destruct module as [|e|
                      |name [names|e]]; cbn -[prefix_of_text take].
  - repeat split; try lia; try done; try by intros (? & ? & ?).
    intros e [|]; done.
  - repeat split; try lia; try done; try by intros (? & ? & ?).
    intros e' [H|H]; [done|].
    assert (e' = prefix_of_text 50 e) as -> by congruence. apply Hcut.
  - repeat split; try lia; try done; try by intros (? & ? & ?).
    intros e [|]; done.
  - repeat split; try done; try by eauto.
    + rewrite length_take. lia.
    + by intros ? ? [= _ <-].
    + intros Hne. by destruct (Hne name names).
    + intros e [|]; done.
  - repeat split; try lia; try done; try by eauto.
    + by intros (? & ? & [=]).
    + intros e' [H|H]; [|done].
      assert (e' = prefix_of_text 50 e) as -> by congruence. apply Hcut.
Qed.

Lemma diagnostic_discloses_witness :
  collections
    (test_database (Db (Some "shop"%string) (Ok ["appointments"%string]))
       {[ "DATABASE_URL"%string := "mongodb://localhost"%string ]})
  = take 10 ["appointments"%string].
Proof.
  exact (proj2 (proj1 (proj2 (diagnostic_discloses
           (Db (Some "shop"%string) (Ok ["appointments"%string]))
           {[ "DATABASE_URL"%string := "mongodb://localhost"%string ]})))
           (Some "shop"%string) ["appointments"%string] eq_refl).
Defined.
